(** * hub: an in-process publish/subscribe dispatcher

    A shallow embedding of the Go package [hub]: the sinks and newSink,
    the subscriptions registry (add, remove, publish) and the dispatcher
    of hub.go (New, Publish, Subscribe, Cancel), with the properties of
    registry and dispatcher.

    Modelling choices, all visible in the definitions below:
    - [reflect.Type] is an inductive tree [rtype]; a [reflect.Type]
      interface value that may be nil is [option rtype].
    - A Go map is a reference: [subscriptions] is nil or the address of a
      map object in a heap of map objects, so that "the same instance",
      "a new instance" and "the receiver is not mutated" can be stated.
    - A [sink] is a pointer to a sinkFunc, sinkChan or sinkMethod struct;
      sinks are compared by that pointer.
    - What listeners do when they are called is a parameter: an abstract
      [World] and the two reflective primitives [Value.Call] and
      [Value.Send], each of which returns or panics.  Listeners act on
      the [World] only: they do not call back into the hub.  Every
      delivery is also recorded in a log.
    - Function types have fixed parameter lists; variadic functions are
      not modelled.
    - The mutex is left out: the model is sequential. *)

From stdpp Require Import gmap strings list fin_maps countable sorting.

Set Default Proof Using "Type".
Local Set Warnings "-register-all".

(** ** reflect: kinds, channel directions, types *)

Inductive Kind :=
  | Invalid | Bool | Int | Uint | Float64 | Array | Chan | Func | Interface
  | Map | Pointer | Slice | String | Struct.

Global Instance Kind_eq_dec : EqDecision Kind.
Proof. solve_decision. Defined.

Inductive ChanDir := RecvDir | SendDir | BothDir.

Global Instance ChanDir_eq_dec : EqDecision ChanDir.
Proof. solve_decision. Defined.

(** The kinds of the types that are neither functions, channels nor
    interfaces. *)
Inductive plainKind :=
  | PBool | PInt | PUint | PFloat64 | PArray | PMap | PPointer | PSlice
  | PString | PStruct.

Global Instance plainKind_eq_dec : EqDecision plainKind.
Proof. solve_decision. Defined.

Definition plainKind_code (k : plainKind) : nat :=
  match k with
  | PBool => 0 | PInt => 1 | PUint => 2 | PFloat64 => 3 | PArray => 4
  | PMap => 5 | PPointer => 6 | PSlice => 7 | PString => 8 | PStruct => 9
  end.

Definition plainKind_of_code (n : nat) : plainKind :=
  match n with
  | 0 => PBool | 1 => PInt | 2 => PUint | 3 => PFloat64 | 4 => PArray
  | 5 => PMap | 6 => PPointer | 7 => PSlice | 8 => PString | _ => PStruct
  end.

Definition ChanDir_code (d : ChanDir) : nat :=
  match d with RecvDir => 0 | SendDir => 1 | BothDir => 2 end.

Definition ChanDir_of_code (n : nat) : ChanDir :=
  match n with 0 => RecvDir | 1 => SendDir | _ => BothDir end.

(** A run-time type.  [Plain k name ms] is a type of kind [k] called
    [name] whose exported method set is [ms]: each method is given by its
    parameters and results, the receiver not included. *)
Inductive rtype :=
  | Plain (k : plainKind) (name : string)
          (methods : list (list rtype * list rtype))
  | FuncOf (ins outs : list rtype)
  | ChanOf (dir : ChanDir) (elem : rtype)
  | Iface (name : string).

Section rtype_ind.
Variable P : rtype → Prop.
Hypothesis HPlain : ∀ k name ms,
  Forall (λ m, Forall P m.1 ∧ Forall P m.2) ms → P (Plain k name ms).
Hypothesis HFunc : ∀ ins outs,
  Forall P ins → Forall P outs → P (FuncOf ins outs).
Hypothesis HChan : ∀ d el, P el → P (ChanOf d el).
Hypothesis HIface : ∀ name, P (Iface name).

Fixpoint rtype_nested_ind (t : rtype) : P t :=
  let all := fix all (l : list rtype) : Forall P l :=
    match l with
    | [] => Forall_nil_2 P
    | x :: l' => Forall_cons_2 P x l' (rtype_nested_ind x) (all l')
    end in
  match t with
  | Plain k name ms =>
      HPlain k name ms
        ((fix meths (l : list (list rtype * list rtype)) :=
            match l return Forall (λ m, Forall P m.1 ∧ Forall P m.2) l with
            | [] => Forall_nil_2 _
            | (i, o) :: l' =>
                Forall_cons_2 (λ m, Forall P m.1 ∧ Forall P m.2) (i, o) l'
                  (conj (all i) (all o)) (meths l')
            end) ms)
  | FuncOf ins outs => HFunc ins outs (all ins) (all outs)
  | ChanOf d el => HChan d el (rtype_nested_ind el)
  | Iface name => HIface name
  end.
End rtype_ind.

(** Types are encoded as trees over [nat + string], which gives them
    decidable equality and makes them usable as map keys. *)
Fixpoint rtype_enc (t : rtype) : gen_tree (nat + string) :=
  match t with
  | Plain k name ms =>
      GenNode 0
        (GenLeaf (inl (plainKind_code k)) :: GenLeaf (inr name) ::
         map (λ m, match m with
                   | (i, o) => GenNode 4 [GenNode 5 (map rtype_enc i);
                                          GenNode 5 (map rtype_enc o)]
                   end) ms)
  | FuncOf ins outs =>
      GenNode 1 [GenNode 5 (map rtype_enc ins); GenNode 5 (map rtype_enc outs)]
  | ChanOf d el => GenNode 2 [GenLeaf (inl (ChanDir_code d)); rtype_enc el]
  | Iface name => GenNode 3 [GenLeaf (inr name)]
  end.

Definition invalidType : rtype := Plain PStruct "" [].

Fixpoint rtype_dec (g : gen_tree (nat + string)) : rtype :=
  match g with
  | GenNode 0 (GenLeaf (inl k) :: GenLeaf (inr name) :: ms) =>
      Plain (plainKind_of_code k) name
        (map (λ m, match m with
                   | GenNode 4 [GenNode 5 i; GenNode 5 o] =>
                       (map rtype_dec i, map rtype_dec o)
                   | _ => ([], [])
                   end) ms)
  | GenNode 1 [GenNode 5 ins; GenNode 5 outs] =>
      FuncOf (map rtype_dec ins) (map rtype_dec outs)
  | GenNode 2 [GenLeaf (inl d); el] => ChanOf (ChanDir_of_code d) (rtype_dec el)
  | GenNode 3 [GenLeaf (inr name)] => Iface name
  | _ => invalidType
  end.

(** The decoder inverts the encoder. *)
Definition rtype_dec_enc (t : rtype) : rtype_dec (rtype_enc t) = t.
Proof.
  assert (∀ l, Forall (λ t, rtype_dec (rtype_enc t) = t) l →
               map rtype_dec (map rtype_enc l) = l) as Hmap.
  { induction 1 as [|x l Hx _ IH]; simpl; [done|]. by rewrite Hx, IH. }
  induction t as [k name ms IH|ins outs IHi IHo|d el IH|name]
    using rtype_nested_ind; simpl.
  - f_equal; [by destruct k|].
    induction IH as [|[i o] ms [Hi Ho] _ IHms]; simpl; [done|].
    by rewrite !Hmap, IHms.
  - by rewrite !Hmap.
  - rewrite IH. by destruct d.
  - done.
Qed.

Global Instance rtype_eq_dec : EqDecision rtype.
Proof.
  intros x y. destruct (decide (rtype_enc x = rtype_enc y)) as [H|H].
  - left. rewrite <-(rtype_dec_enc x), <-(rtype_dec_enc y). by rewrite H.
  - right. intros ->. by apply H.
Defined.

Global Instance rtype_countable : Countable rtype :=
  inj_countable' rtype_enc rtype_dec rtype_dec_enc.

(** ** reflect: values *)

(** What a value carries besides its type: an opaque payload (a scalar,
    or the address of a closure, channel or object), or the function
    [T.m] of method number [index] of type [recv], which takes the
    receiver as its first argument. *)
Inductive payload :=
  | Opaque (n : nat)
  | MethodExpr (recv : rtype) (index : nat).

(** A non-nil [interface{}] value: its dynamic type and its payload. *)
Record Value := mkValue { typ : rtype; dat : payload }.

(** [interface{}]: [None] is nil. *)
Abbreviation iface := (option Value).
(** [reflect.Type] as an interface value: [None] is nil. *)
Abbreviation Type_ := (option rtype).
(** [reflect.Value]: [None] is the zero Value. *)
Abbreviation rValue := (option Value).

Definition TypeOf (i : iface) : Type_ := typ <$> i.
Definition ValueOf (i : iface) : rValue := i.

Definition KindOf (t : rtype) : Kind :=
  match t with
  | Plain k _ _ =>
      match k with
      | PBool => Bool | PInt => Int | PUint => Uint | PFloat64 => Float64
      | PArray => Array | PMap => Map | PPointer => Pointer
      | PSlice => Slice | PString => String | PStruct => Struct
      end
  | FuncOf _ _ => Func
  | ChanOf _ _ => Chan
  | Iface _ => Interface
  end.

(** [NumIn], [NumOut] and [In] panic in Go when the type is not a
    function or the index is out of range; every use below is guarded by
    a kind test and a [NumIn] test, and the models answer [0] and
    [invalidType] there. *)
Definition NumIn (t : rtype) : nat :=
  match t with FuncOf ins _ => length ins | _ => 0 end.
Definition NumOut (t : rtype) : nat :=
  match t with FuncOf _ outs => length outs | _ => 0 end.
Definition In_ (t : rtype) (i : nat) : rtype :=
  match t with FuncOf ins _ => nth i ins invalidType | _ => invalidType end.

(** [ChanDir] and [Elem] of a channel type (Go panics on another kind). *)
Definition ChanDirOf (t : rtype) : ChanDir :=
  match t with ChanOf d _ => d | _ => BothDir end.
Definition Elem (t : rtype) : rtype :=
  match t with ChanOf _ el => el | _ => invalidType end.

(** The exported method set.  Only [Plain] types carry one here: the
    method count of a function or channel type is never consulted,
    newSink tests the kind first. *)
Definition methodsOf (t : rtype) : list (list rtype * list rtype) :=
  match t with Plain _ _ ms => ms | _ => [] end.
Definition NumMethod (t : rtype) : nat := length (methodsOf t).

(** [t.Method(i).Func]: for a method taken from a type, a function whose
    first parameter is the receiver. *)
Definition MethodFunc (t : rtype) (i : nat) : Value :=
  match methodsOf t !! i with
  | Some (ins, outs) => mkValue (FuncOf (t :: ins) outs) (MethodExpr t i)
  | None => mkValue invalidType (MethodExpr t i)
  end.

(** ** Sinks: the errors, the three sink structs, newSink *)

Inductive error :=
  | ErrInvalidListener
  | ErrInvalidFunction
  | ErrInvalidChannel
  | ErrInvalidEventType.

Global Instance error_eq_dec : EqDecision error.
Proof. solve_decision. Defined.

(** The three sink structs. *)
Inductive sinkStruct :=
  | sinkFunc (f : rValue)
  | sinkChan (c : rValue)
  | sinkMethod (r : rValue) (m : rValue).

Definition addr := nat.

(** A non-nil [sink] interface value: a pointer to one of the sink
    structs, carried together with the struct it points to (the structs
    are never written after their allocation). *)
Record sink := mkSink { sptr : addr; sobj : sinkStruct }.

(** [candidate != oldSink] on sinks compares the pointers. *)
Definition sink_neqb (a b : sink) : bool := negb (sptr a =? sptr b).

(** newSink.  [p] is the address the allocator hands out for the sink
    struct.  [inl e] stands for the triple [(nil, nil, e)], [inr (t, s)]
    for [(t, s, nil)]. *)
Definition newSink (t : iface) (p : addr) : error + (rtype * sink) :=
  match TypeOf t with
  | None => inl ErrInvalidListener
  | Some listenerType =>
      let shape : error + (rtype * sink) :=
        if decide (KindOf listenerType = Func) then
          if negb (NumIn listenerType =? 1) || negb (NumOut listenerType =? 0)
          then inl ErrInvalidFunction
          else inr (In_ listenerType 0, mkSink p (sinkFunc (ValueOf t)))
        else if decide (KindOf listenerType = Chan) then
          if decide (ChanDirOf listenerType = RecvDir)
          then inl ErrInvalidChannel
          else inr (Elem listenerType, mkSink p (sinkChan (ValueOf t)))
        else if NumMethod listenerType =? 1 then
          let m := MethodFunc listenerType 0 in
          if negb (NumIn (typ m) =? 2) || negb (NumOut (typ m) =? 0)
          then inl ErrInvalidFunction
          else inr (In_ (typ m) 1,
                    mkSink p (sinkMethod (ValueOf t) (Some m)))
        else inl ErrInvalidListener in
      match shape with
      | inl e => inl e
      | inr (eventType, s) =>
          if decide (KindOf eventType = Interface)
          then inl ErrInvalidEventType
          else inr (eventType, s)
      end
  end.

(** ** The world outside the hub *)

(** How a call into a listener ends. *)
Inductive outcome (World : Type) :=
  | Returns (w : World)
  | Panics (w : World).
Arguments Returns {World} w.
Arguments Panics {World} w.

(** One delivery: the sink whose [send] was entered and the value it
    was given. *)
Definition delivery := (sink * rValue)%type.

(** ** The registry: type subscriptions with add, remove, publish *)

(** The contents of one map object of type [map[reflect.Type][]sink]. *)
Abbreviation submap := (gmap Type_ (list sink)).

(** The heap of map objects; the address of an object is its index. *)
Abbreviation mapheap := (list submap).

(** A value of type [subscriptions]: the nil map or a reference to a map
    object. *)
Inductive subscriptions :=
  | nilmap
  | mapref (a : addr).

Global Instance subscriptions_eq_dec : EqDecision subscriptions.
Proof. solve_decision. Defined.

(** What a reference denotes; the nil map reads as the empty map. *)
Definition contents (σ : mapheap) (s : subscriptions) : submap :=
  match s with
  | nilmap => ∅
  | mapref a => default ∅ (σ !! a)
  end.

(** [v, ok := s[k]]; [v] is the nil slice when the key is missing. *)
Definition index (σ : mapheap) (s : subscriptions) (k : Type_)
  : list sink * bool :=
  match contents σ s !! k with
  | Some v => (v, true)
  | None => ([], false)
  end.

(** [make(subscriptions)]. *)
Definition make (σ : mapheap) : subscriptions * mapheap :=
  (mapref (length σ), σ ++ [∅]).

(** [c[k] = v].  (An assignment into the nil map panics in Go; the
    registry assigns only into maps it has just made.) *)
Definition assign (c : subscriptions) (k : Type_) (v : list sink)
    (σ : mapheap) : mapheap :=
  match c with
  | nilmap => σ
  | mapref a => alter (insert k v) a σ
  end.

(** [append([]sink{}, v...)]. *)
Definition copy_slice (v : list sink) : list sink := [] ++ v.

(** add.  The loop over the receiver is a fold over its entries. *)
Definition add (s : subscriptions) (eventType : Type_) (newSink : sink)
    (σ : mapheap) : subscriptions * mapheap :=
  let '(clone, σ1) := make σ in
  let σ2 :=
    map_fold (λ k v σ', assign clone k (copy_slice v) σ') σ1 (contents σ s) in
  let σ3 :=
    assign clone eventType ((index σ2 clone eventType).1 ++ [newSink]) σ2 in
  (clone, σ3).

(** The filtering loop of remove. *)
Definition remove_loop (existing : list sink) (oldSink : sink) : list sink :=
  foldl (λ updated candidate,
           if sink_neqb candidate oldSink then updated ++ [candidate]
           else updated) [] existing.

Definition remove (s : subscriptions) (eventType : Type_) (oldSink : sink)
    (σ : mapheap) : subscriptions * mapheap :=
  let '(existing, ok) := index σ s eventType in
  if negb ok then (s, σ)
  else
    let updated := remove_loop existing oldSink in
    if length existing =? length updated then (s, σ)
    else
      let '(clone, σ1) := make σ in
      let σ2 :=
        map_fold (λ k v σ',
                    if decide (k ≠ eventType)
                    then assign clone k (copy_slice v) σ'
                    else assign clone k updated σ') σ1 (contents σ s) in
      (clone, σ2).

Section World.
Context {World : Type}.
(** [f.Call(args)] and [c.Send(v)] of package reflect. *)
Variable Call : rValue → list rValue → World → outcome World.
Variable Send : rValue → rValue → World → outcome World.

(** The send method of the three sinks. *)
Definition send (s : sink) (v : rValue) (w : World) : outcome World :=
  match sobj s with
  | sinkFunc f => Call f [v] w
  | sinkChan c => Send c v w
  | sinkMethod r m => Call m [r; v] w
  end.

(** The loop of publish: each sink in turn; a panic ends the loop and
    leaves the function. *)
Fixpoint deliver (sinks : list sink) (v : rValue) (w : World)
  : list delivery * outcome World :=
  match sinks with
  | [] => ([], Returns w)
  | s :: rest =>
      match send s v w with
      | Returns w' =>
          let '(log, out) := deliver rest v w' in ((s, v) :: log, out)
      | Panics w' => ([(s, v)], Panics w')
      end
  end.

Definition publish (σ : mapheap) (s : subscriptions) (e : iface) (w : World)
  : list delivery * outcome World :=
  let v := ValueOf e in
  deliver (index σ s (TypeOf e)).1 v w.

End World.

(** ** hub.go: the dispatcher *)

(** A [Cancel] closure made by [hub.cancel]: the address of its
    [sync.Once] and the two captured variables. *)
Record Cancel := mkCancel {
  c_once : addr;
  c_eventType : Type_;
  c_sink : sink
}.

(** The hub and the part of the Go heap it works on.  [cell] is the
    [atomic.Value] field [subscriptions], [None] until the first Store;
    [onces] holds the done flag of every [sync.Once] allocated by
    [cancel]; [nsinks] is the address of the next sink struct. *)
Record hub := mkHub {
  heap : mapheap;
  cell : option subscriptions;
  onces : list bool;
  nsinks : addr
}.

(** [New]: [new(hub)], all fields zero. *)
Definition New : hub := mkHub [] None [] 0.

(** [v, _ := h.subscriptions.Load().(subscriptions)]: the failed
    assertion on an empty cell leaves the zero value, the nil map. *)
Definition load (h : hub) : subscriptions :=
  match cell h with
  | Some v => v
  | None => nilmap
  end.

Definition store (new : subscriptions) (h : hub) : hub :=
  mkHub (heap h) (Some new) (onces h) (nsinks h).

(** [hub.cancel]: allocates the [sync.Once] and returns the closure. *)
Definition cancel (eventType : Type_) (s : sink) (h : hub) : Cancel * hub :=
  (mkCancel (length (onces h)) eventType s,
   mkHub (heap h) (cell h) (onces h ++ [false]) (nsinks h)).

(** Subscribe.  The sink struct gets the next free address; when
    newSink fails nothing stays allocated. *)
Definition Subscribe (l : iface) (h : hub)
  : option Cancel * option error * hub :=
  match newSink l (nsinks h) with
  | inl err => (None, Some err, h)
  | inr (eventType, s) =>
      let '(new, σ) := add (load h) (Some eventType) s (heap h) in
      let h1 := store new (mkHub σ (cell h) (onces h) (S (nsinks h))) in
      let '(c, h2) := cancel (Some eventType) s h1 in
      (Some c, None, h2)
  end.

(** Calling a [Cancel] closure: [once.Do] runs the removal when the
    done flag is still unset, and sets it. *)
Definition call_Cancel (c : Cancel) (h : hub) : hub :=
  match onces h !! c_once c with
  | Some false =>
      let '(new, σ) := remove (load h) (c_eventType c) (c_sink c) (heap h) in
      let h1 := store new (mkHub σ (cell h) (onces h) (nsinks h)) in
      mkHub (heap h1) (cell h1) (<[c_once c := true]> (onces h1)) (nsinks h1)
  | _ => h
  end.

Section Publish.
Context {World : Type}.
Variable Call : rValue → list rValue → World → outcome World.
Variable Send : rValue → rValue → World → outcome World.

Definition Publish (e : iface) (h : hub) (w : World)
  : list delivery * outcome World :=
  publish Call Send (heap h) (load h) e w.

End Publish.

(** [Must]: panics with [err] when [err] is not nil, and returns [c]
    otherwise.  [inl e] is the panic with value [e]. *)
Definition Must (c : option Cancel) (err : option error)
  : error + option Cancel :=
  match err with
  | Some e => inl e
  | None => inr c
  end.

(** ** Clients of a hub *)

(** What a program does to a hub over time: it subscribes listeners and
    calls cancellation closures it was given.  (Publishing leaves the hub
    as it is.)  [handles] are the closures returned so far. *)
Inductive op :=
  | Sub (l : iface)
  | Can (i : nat).

Record client := mkClient { the_hub : hub; handles : list Cancel }.

Definition step (c : client) (o : op) : client :=
  match o with
  | Sub l =>
      match Subscribe l (the_hub c) with
      | (Some k, _, h') => mkClient h' (handles c ++ [k])
      | (None, _, h') => mkClient h' (handles c)
      end
  | Can i =>
      match handles c !! i with
      | Some k => mkClient (call_Cancel k (the_hub c)) (handles c)
      | None => c
      end
  end.

Definition run (ops : list op) (c : client) : client := foldl step c ops.

Definition start : client := mkClient New [].

(** * Vocabulary of the properties *)

(** The registry a publisher currently sees. *)
Definition registry (h : hub) : submap := contents (heap h) (load h).

(** A reference that denotes something: nil, or an object of the heap. *)
Definition valid_ref (σ : mapheap) (s : subscriptions) : Prop :=
  match s with
  | nilmap => True
  | mapref a => a < length σ
  end.

(** The pair (t, x) is in the registry: t has a list and x, compared by
    pointer, is in it. *)
Definition present (σ : mapheap) (s : subscriptions) (t : Type_) (x : sink)
  : Prop :=
  ∃ existing c,
    contents σ s !! t = Some existing ∧ c ∈ existing ∧ sptr c = sptr x.

(** The sinks other than [x]. *)
Definition others (x : sink) (l : list sink) : list sink :=
  filter (λ c, sptr c ≠ sptr x) l.

(** How often [x] occurs in a list of sinks. *)
Definition occurrences (x : sink) (l : list sink) : nat :=
  length (filter (λ c, sptr c = sptr x) l).

(** The deliveries of a whole list, in list order. *)
Definition deliveries (sinks : list sink) (v : rValue) : list delivery :=
  (λ x, (x, v)) <$> sinks.

(** How often the send of [x] was entered, according to a log. *)
Definition entered (x : sink) (log : list delivery) : nat :=
  length (filter (λ d, sptr d.1 = sptr x) log).

(** The sinks of a list that stand before the first occurrence of [x]. *)
Fixpoint ahead_of (x : sink) (l : list sink) : list sink :=
  match l with
  | [] => []
  | c :: l' => if decide (sptr c = sptr x) then [] else c :: ahead_of x l'
  end.

(** The sinks that publish enters for an event of type [t]. *)
Definition sinks_for (h : hub) (t : Type_) : list sink :=
  default [] (registry h !! t).

(** What holds of every hub a client can get to. *)
Record hub_inv (c : client) : Prop := mk_hub_inv {
  (* the nil type is not a key *)
  inv_nil_key : registry (the_hub c) !! None = None;
  (* one sync.Once per closure handed out *)
  inv_handles : length (handles c) = length (onces (the_hub c));
  inv_handle : ∀ i k, handles c !! i = Some k →
    c_once k = i ∧ sptr (c_sink k) < nsinks (the_hub c);
  (* different closures hold different sinks *)
  inv_inj : ∀ i j ki kj,
    handles c !! i = Some ki → handles c !! j = Some kj →
    sptr (c_sink ki) = sptr (c_sink kj) → i = j;
  (* the sink of a closure that has run is in no list *)
  inv_fired : ∀ i k, handles c !! i = Some k →
    onces (the_hub c) !! i = Some true →
    ∀ t l, registry (the_hub c) !! t = Some l →
           Forall (λ x, sptr x ≠ sptr (c_sink k)) l;
  (* a registered sink is the sink of a closure for the same type *)
  inv_owner : ∀ t l x, registry (the_hub c) !! t = Some l → x ∈ l →
    ∃ i k, handles c !! i = Some k ∧ c_sink k = x ∧ c_eventType k = t
}.

(** The candidates that the specification says are turned down, each
    with its error: nil, a value that is neither function nor channel
    and has not exactly one method; a function, or the one method, with
    other than one parameter or with a result; a receive-only channel;
    and an accepted shape whose event type is an interface. *)
Inductive spec_rejects : iface → error → Prop :=
  | rej_nil :
      spec_rejects None ErrInvalidListener
  | rej_methods v :
      KindOf (typ v) ≠ Func → KindOf (typ v) ≠ Chan →
      NumMethod (typ v) ≠ 1 →
      spec_rejects (Some v) ErrInvalidListener
  | rej_func v ins outs :
      typ v = FuncOf ins outs → length ins ≠ 1 ∨ length outs ≠ 0 →
      spec_rejects (Some v) ErrInvalidFunction
  | rej_method v ins outs :
      KindOf (typ v) ≠ Func → KindOf (typ v) ≠ Chan →
      methodsOf (typ v) = [(ins, outs)] →
      length ins ≠ 1 ∨ length outs ≠ 0 →
      spec_rejects (Some v) ErrInvalidFunction
  | rej_chan v el :
      typ v = ChanOf RecvDir el →
      spec_rejects (Some v) ErrInvalidChannel
  | rej_func_event v T :
      typ v = FuncOf [T] [] → KindOf T = Interface →
      spec_rejects (Some v) ErrInvalidEventType
  | rej_chan_event v d T :
      typ v = ChanOf d T → d ≠ RecvDir → KindOf T = Interface →
      spec_rejects (Some v) ErrInvalidEventType
  | rej_method_event v T :
      KindOf (typ v) ≠ Func → KindOf (typ v) ≠ Chan →
      methodsOf (typ v) = [([T], [])] → KindOf T = Interface →
      spec_rejects (Some v) ErrInvalidEventType.

(** More that holds of every hub a client can get to: the cell refers
    to an object of the heap; the keys are types that are not
    interfaces; sinks are handed out, and stand in every list, in the
    order of the Subscribe calls; and the sink of a closure that has not
    run stands once in the list of its type. *)
Definition ascending (l : list sink) : Prop :=
  StronglySorted (λ a b, sptr a < sptr b) l.

Record hub_order (c : client) : Prop := mk_hub_order {
  ord_valid : valid_ref (heap (the_hub c)) (load (the_hub c));
  ord_keys : ∀ t l, registry (the_hub c) !! t = Some l →
    ∃ T, t = Some T ∧ KindOf T ≠ Interface;
  ord_handles : ∀ i j ki kj,
    handles c !! i = Some ki → handles c !! j = Some kj → i < j →
    sptr (c_sink ki) < sptr (c_sink kj);
  ord_sorted : ∀ t l, registry (the_hub c) !! t = Some l → ascending l;
  ord_live : ∀ i k, handles c !! i = Some k →
    onces (the_hub c) !! i = Some false →
    occurrences (c_sink k) (sinks_for (the_hub c) (c_eventType k)) = 1
}.

(** [x] stands before [y] in the list. *)
Definition stands_before (x y : sink) (l : list sink) : Prop :=
  ∃ l1 l2 l3, l = l1 ++ x :: l2 ++ y :: l3.

(** The sinks of the closures for event type [t] that the client was
    given and that have not run, in the order in which Subscribe
    returned them. *)
Definition live (c : client) (t : Type_) : list sink :=
  c_sink <$>
    filter (λ k, c_eventType k = t
                 ∧ onces (the_hub c) !! c_once k = Some false)
           (handles c).

(** ** Concrete values for the examples *)

(** The types and listeners of the package's tests and examples. *)
Definition tString : rtype := Plain PString "string" [].
Definition tInt : rtype := Plain PInt "int" [].
Definition tTestEvent : rtype := Plain PStruct "TestEvent" [].
Definition tReader : rtype := Iface "io.Reader".
Definition tError : rtype := Iface "error".
Definition tBuffer : rtype :=
  Plain PPointer "*bytes.Buffer"
    [([], [tInt]); ([], [tString]);
     ([Plain PSlice "[]byte" []], [tInt; tError])].
Definition tBadListener : rtype :=
  Plain PStruct "BadListener" [([tInt; tInt], [])].
Definition tMockListener : rtype :=
  Plain PPointer "*mockListener" [([tTestEvent], [])].

(** Listeners: function values are told apart by their payload. *)
Definition onString (n : nat) : Value :=
  mkValue (FuncOf [tString] []) (Opaque n).
Definition onTestEvent (n : nat) : Value :=
  mkValue (FuncOf [tTestEvent] []) (Opaque n).
Definition aString (n : nat) : Value := mkValue tString (Opaque n).
Definition aTestEvent (n : nat) : Value := mkValue tTestEvent (Opaque n).

(** The candidates of testHubInvalidSubscribe, in the order of the test. *)
Definition invalidCandidates : list iface :=
  [ Some (mkValue (FuncOf [tReader] []) (Opaque 1));
    Some (mkValue (FuncOf [tInt; tInt] []) (Opaque 2));
    Some (mkValue (FuncOf [] []) (Opaque 3));
    Some (mkValue (FuncOf [tInt] [tError]) (Opaque 4));
    Some (mkValue tBuffer (Opaque 5));
    Some (mkValue (ChanOf RecvDir tTestEvent) (Opaque 6));
    Some (mkValue tBadListener (Opaque 7));
    None ].

(** A world that records the payload of every function called, of the
    receiver of every method called and of every channel sent to; the
    function with payload 13 panics. *)
Definition demoCall (f : rValue) (args : list rValue) (w : list nat)
  : outcome (list nat) :=
  match f with
  | Some (mkValue _ (Opaque 13)) => Panics (w ++ [13])
  | Some (mkValue _ (Opaque n)) => Returns (w ++ [n])
  | Some (mkValue _ (MethodExpr _ _)) =>
      match args with
      | Some (mkValue _ (Opaque n)) :: _ => Returns (w ++ [n])
      | _ => Returns w
      end
  | None => Returns w
  end.
Definition demoSend (c v : rValue) (w : list nat) : outcome (list nat) :=
  match c with
  | Some (mkValue _ (Opaque n)) => Returns (w ++ [n])
  | _ => Returns w
  end.

(** The scenario of the specification: two listeners for one type, the
    first is cancelled, twice. *)
Definition scenario (ops : list op) : hub :=
  the_hub
    (run ([Sub (Some (onTestEvent 1)); Sub (Some (onTestEvent 2))] ++ ops)
         start).

(** The listeners of testHubPublishSubscribe: an object with one method,
    a function, a channel, and a function for another type. *)
Definition tRequest : rtype := Plain PPointer "*http.Request" [].
Definition testListeners : list op :=
  [ Sub (Some (mkValue tMockListener (Opaque 1)));
    Sub (Some (onTestEvent 2));
    Sub (Some (mkValue (ChanOf BothDir tTestEvent) (Opaque 3)));
    Sub (Some (mkValue (FuncOf [tRequest] []) (Opaque 4))) ].

(** * Properties *)

(** ** The registry operations *)

Lemma assign_made (σ : mapheap) (m : submap) k v :
  assign (mapref (length σ)) k v (σ ++ [m]) = σ ++ [<[k:=v]> m].
Proof.
  simpl. rewrite <-(Nat.add_0_r (length σ)). by rewrite alter_app_r.
Qed.

(** The copying loop of add and remove, run on a map that was just made:
    it fills the new object and touches nothing else. *)
Lemma clone_loop (G : Type_ → list sink → mapheap → mapheap)
    (F : Type_ → list sink → list sink) (σ : mapheap) (m : submap) :
  (∀ k v σ', G k v σ' = assign (mapref (length σ)) k (F k v) σ') →
  map_fold G (σ ++ [∅]) m = σ ++ [map_imap (λ k v, Some (F k v)) m].
Proof.
  intros HG.
  apply (map_fold_weak_ind
    (λ r m, r = σ ++ [map_imap (λ k v, Some (F k v)) m])).
  - by rewrite map_imap_empty.
  - intros k v m' r Hk ->. rewrite HG, assign_made.
    by rewrite map_imap_insert.
Qed.

Lemma contents_made (σ : mapheap) (m : submap) :
  contents (σ ++ [m]) (mapref (length σ)) = m.
Proof.
  simpl. rewrite lookup_app_r by lia. by rewrite Nat.sub_diag.
Qed.

Lemma remove_loop_filter existing oldSink :
  remove_loop existing oldSink
  = filter (λ c, sptr c ≠ sptr oldSink) existing.
Proof.
  unfold remove_loop.
  assert (∀ acc, foldl (λ updated candidate,
             if sink_neqb candidate oldSink then updated ++ [candidate]
             else updated) acc existing
           = acc ++ filter (λ c, sptr c ≠ sptr oldSink) existing) as H.
  { induction existing as [|c l IH]; intros acc; simpl.
    - by rewrite app_nil_r.
    - rewrite IH. unfold sink_neqb. rewrite filter_cons.
      destruct (Nat.eqb_spec (sptr c) (sptr oldSink)); simpl;
        case_decide; try done.
      by rewrite <-app_assoc. }
  apply (H []).
Qed.

Lemma length_filter_all {A} (P : A → Prop) `{!∀ x, Decision (P x)}
    (l : list A) :
  length l = length (filter P l) ↔ Forall P l.
Proof.
  split.
  - intros Hlen. apply list.Forall_forall. intros x Hx.
    destruct (decide (P x)) as [|Hn]; [done|].
    pose proof (length_filter_lt P l x Hx Hn). lia.
  - intros HF. induction HF as [|x l Hx _ IH]; [done|].
    rewrite filter_cons_True by done. simpl. by rewrite <-IH.
Qed.

(** What add returns and what it does to the heap. *)
Lemma add_spec s eventType newSink σ :
  add s eventType newSink σ
  = (mapref (length σ),
     σ ++ [<[eventType := (index σ s eventType).1 ++ [newSink]]>
             (contents σ s)]).
Proof.
  unfold add, make.
  rewrite (clone_loop _ (λ _ v, copy_slice v)) by done.
  assert (map_imap (λ (_ : Type_) (v : list sink), Some (copy_slice v))
            (contents σ s) = contents σ s) as ->.
  { apply map_eq. intros k. rewrite map_lookup_imap.
    by destruct (contents σ s !! k). }
  rewrite assign_made. do 3 f_equal.
  unfold index. rewrite contents_made. done.
Qed.

(** What remove returns and what it does to the heap. *)
Lemma remove_spec s eventType oldSink σ :
  remove s eventType oldSink σ =
  match contents σ s !! eventType with
  | None => (s, σ)
  | Some existing =>
      let updated := filter (λ c, sptr c ≠ sptr oldSink) existing in
      if decide (Forall (λ c, sptr c ≠ sptr oldSink) existing) then (s, σ)
      else (mapref (length σ),
            σ ++ [<[eventType := updated]> (contents σ s)])
  end.
Proof.
  unfold remove, index.
  destruct (contents σ s !! eventType) as [existing|] eqn:Hk; simpl; [|done].
  rewrite remove_loop_filter.
  destruct (Nat.eqb_spec (length existing)
    (length (filter (λ c, sptr c ≠ sptr oldSink) existing))) as [Hlen|Hlen].
  - rewrite decide_True; [done|].
    by apply length_filter_all in Hlen.
  - rewrite decide_False.
    2:{ intros HF. apply Hlen. by apply length_filter_all. }
    unfold make.
    rewrite (clone_loop _ (λ k v, if decide (k ≠ eventType) then copy_slice v
                                  else filter (λ c, sptr c ≠ sptr oldSink)
                                         existing))
      by (intros; by case_decide).
    do 3 f_equal. apply map_eq. intros k. rewrite map_lookup_imap.
    destruct (decide (k = eventType)) as [->|Hne].
    + rewrite lookup_insert_eq, Hk. simpl. by rewrite decide_False by tauto.
    + rewrite lookup_insert_ne by done.
      destruct (contents σ s !! k); simpl; [|done].
      by rewrite decide_True.
Qed.

Lemma contents_prefix σ σ' s :
  valid_ref σ s → contents (σ ++ σ') s = contents σ s.
Proof.
  destruct s as [|a]; simpl; [done|]. intros Ha. by rewrite lookup_app_l.
Qed.

Lemma present_valid σ s t x : present σ s t x → valid_ref σ s.
Proof.
  intros (existing & c & Hk & _). destruct s as [|a]; simpl in *; [done|].
  destruct (σ !! a) eqn:Ha; simpl in Hk; [|done].
  by eapply lookup_lt_Some.
Qed.

Lemma not_Forall_present σ s t x existing :
  contents σ s !! t = Some existing →
  ¬ Forall (λ c, sptr c ≠ sptr x) existing ↔ present σ s t x.
Proof.
  intros Hk. split.
  - intros HF. apply not_Forall_Exists in HF; [|apply _].
    apply list.Exists_exists in HF as (c & Hc & Heq). simpl in Heq.
    exists existing, c. split_and!; [done|done|].
    destruct (decide (sptr c = sptr x)); [done|]. by destruct Heq.
  - intros (existing' & c & Hk' & Hc & Heq) HF. simplify_eq.
    by eapply (proj1 (list.Forall_forall _ _) HF c).
Qed.

Lemma others_all x l :
  Forall (λ c, sptr c ≠ sptr x) l → others x l = l.
Proof.
  unfold others. induction 1 as [|c l Hc _ IH]; [done|].
  by rewrite filter_cons_True, IH.
Qed.

Lemma occurrences_none x l :
  Forall (λ c, sptr c ≠ sptr x) l → occurrences x l = 0.
Proof.
  unfold occurrences. induction 1 as [|c l Hc _ IH]; [done|].
  by rewrite filter_cons_False.
Qed.

Lemma occurrences_others x l : occurrences x (others x l) = 0.
Proof.
  unfold occurrences, others. induction l as [|c l IH]; [done|].
  rewrite filter_cons. case_decide; [|done].
  by rewrite filter_cons_False.
Qed.

Lemma index_fst σ s t : (index σ s t).1 = default [] (contents σ s !! t).
Proof. unfold index. by destruct (contents σ s !! t). Qed.

Lemma alter_others_insert (m : submap) t x existing :
  m !! t = Some existing →
  <[t := others x existing]> m = alter (others x) t m.
Proof.
  intros Hk. apply map_eq. intros k. destruct (decide (k = t)) as [->|Hne].
  - by rewrite lookup_insert_eq, lookup_alter_eq, Hk.
  - by rewrite lookup_insert_ne, lookup_alter_ne.
Qed.

Lemma alter_others_id (m : submap) t x :
  (∀ l, m !! t = Some l → Forall (λ c, sptr c ≠ sptr x) l) →
  alter (others x) t m = m.
Proof.
  intros Hall. apply map_eq. intros k. destruct (decide (k = t)) as [->|Hne].
  - rewrite lookup_alter_eq. destruct (m !! t) as [l|] eqn:Hk; [|done].
    simpl. by rewrite others_all by auto.
  - by rewrite lookup_alter_ne.
Qed.

(** The registry that remove returns. *)
Lemma remove_contents s t x σ :
  contents (remove s t x σ).2 (remove s t x σ).1
  = alter (others x) t (contents σ s).
Proof.
  rewrite remove_spec.
  destruct (contents σ s !! t) as [existing|] eqn:Hk; cbn [fst snd].
  - cbv zeta. case_decide as HF; cbn [fst snd].
    + symmetry. apply alter_others_id. intros l Hl. by simplify_eq.
    + rewrite (contents_made σ). by apply alter_others_insert.
  - symmetry. apply alter_others_id. intros l Hl. congruence.
Qed.

(** C4. add returns a new map object that holds what the receiver holds,
    except that the list of the given type has the sink appended at its
    end; no map object that existed before, the receiver among them, is
    changed. *)
Theorem add_appends_and_preserves (s : subscriptions) (t : Type_)
    (x : sink) (σ : mapheap) :
  let r := add s t x σ in
  let old := (index σ s t).1 in
  r.1 = mapref (length σ)
  ∧ σ !! length σ = None
  ∧ contents r.2 r.1 = <[t := old ++ [x]]> (contents σ s)
  ∧ contents r.2 r.1 !! t = Some (old ++ [x])
  ∧ (∀ k, k ≠ t → contents r.2 r.1 !! k = contents σ s !! k)
  ∧ (∀ a m, σ !! a = Some m → r.2 !! a = Some m)
  ∧ (valid_ref σ s → contents r.2 s = contents σ s).
Proof.
  intros r old. subst r old. rewrite add_spec. cbn [fst snd].
  rewrite contents_made. split_and!.
  - done.
  - by apply lookup_ge_None.
  - done.
  - by rewrite lookup_insert_eq.
  - intros k Hk. by rewrite lookup_insert_ne.
  - intros a m Ha. rewrite lookup_app_l; [done|]. by eapply lookup_lt_Some.
  - apply contents_prefix.
Qed.

(** C3. remove returns the receiver's contents with every sink equal to
    the given one (by pointer) dropped from the list of the given type.
    When the pair is in the registry the result is a new map object;
    when it is not, the result is the receiver itself and the heap is
    left as it was.  No existing map object is changed. *)
Theorem remove_drops_or_returns_receiver (s : subscriptions) (t : Type_)
    (x : sink) (σ : mapheap) :
  let r := remove s t x σ in
  contents r.2 r.1 = alter (others x) t (contents σ s)
  ∧ (∀ a m, σ !! a = Some m → r.2 !! a = Some m)
  ∧ (present σ s t x →
       r.1 = mapref (length σ) ∧ r.1 ≠ s ∧ σ !! length σ = None
       ∧ r.2 = σ ++ [alter (others x) t (contents σ s)])
  ∧ (¬ present σ s t x → r = (s, σ)).
Proof.
  intros r. subst r. rewrite remove_spec.
  destruct (contents σ s !! t) as [existing|] eqn:Hk.
  - simpl. case_decide as HF.
    + simpl. split_and!.
      * apply map_eq. intros k. destruct (decide (k = t)) as [->|Hne].
        -- rewrite lookup_alter_eq, Hk. simpl. by rewrite others_all.
        -- by rewrite lookup_alter_ne.
      * done.
      * intros Hp. by apply (not_Forall_present _ _ _ _ _ Hk) in Hp.
      * done.
    + assert (<[t:=filter (λ c, sptr c ≠ sptr x) existing]> (contents σ s)
              = alter (others x) t (contents σ s)) as Halt.
      { apply map_eq. intros k. destruct (decide (k = t)) as [->|Hne].
        - by rewrite lookup_insert_eq, lookup_alter_eq, Hk.
        - by rewrite lookup_insert_ne, lookup_alter_ne. }
      cbn [fst snd]. rewrite (contents_made σ), Halt. split_and!.
      * done.
      * intros a m Ha. rewrite lookup_app_l; [done|].
        by eapply lookup_lt_Some.
      * intros Hp. split_and!; [done| |by apply lookup_ge_None|done].
        apply present_valid in Hp. destruct s as [|a]; [done|].
        simpl in Hp. intros [= Heq]. lia.
      * intros Hn. exfalso. apply Hn.
        by apply (not_Forall_present _ _ _ _ _ Hk).
  - simpl. split_and!.
    + apply map_eq. intros k. destruct (decide (k = t)) as [->|Hne].
      * by rewrite lookup_alter_eq, Hk.
      * by rewrite lookup_alter_ne.
    + done.
    + intros (existing & c & Hk' & _). congruence.
    + done.
Qed.

(** C9. When the sink occurs at one or more positions of the list of the
    given type, the list in the registry that remove returns has no
    occurrence of it left, and it is the old list without those
    positions: the other sinks are all there, in their old order. *)
Theorem remove_drops_every_occurrence (s : subscriptions) (t : Type_)
    (x : sink) (σ : mapheap) (existing : list sink) :
  contents σ s !! t = Some existing →
  1 ≤ occurrences x existing →
  let r := remove s t x σ in
  ∃ updated,
    contents r.2 r.1 !! t = Some updated
    ∧ occurrences x updated = 0
    ∧ updated = others x existing
    ∧ sublist updated existing
    ∧ (∀ c, c ∈ existing → sptr c ≠ sptr x → c ∈ updated).
Proof.
  intros Hk Hocc r. subst r. exists (others x existing).
  rewrite remove_spec, Hk. simpl.
  rewrite decide_False.
  2:{ intros HF. apply (occurrences_none x) in HF. lia. }
  cbn [fst snd]. rewrite (contents_made σ), lookup_insert_eq.
  split_and!.
  - done.
  - apply occurrences_others.
  - done.
  - apply sublist_filter.
  - intros c Hc Hne. by apply list_elem_of_filter.
Qed.

(** ** Delivery *)

Section Delivery.
Context {World : Type}.
Variable Call : rValue → list rValue → World → outcome World.
Variable Send : rValue → rValue → World → outcome World.

Lemma deliver_prefix sinks v w :
  (deliver Call Send sinks v w).1 `prefix_of` deliveries sinks v.
Proof.
  revert w. induction sinks as [|x l IH]; intros w; simpl; [done|].
  destruct (send Call Send x v w) as [w'|w'].
  - specialize (IH w'). destruct (deliver Call Send l v w') as [log out].
    simpl in *. by apply prefix_cons.
  - simpl. apply prefix_cons, prefix_nil.
Qed.

Lemma deliver_returns sinks v w w' :
  (deliver Call Send sinks v w).2 = Returns w' →
  (deliver Call Send sinks v w).1 = deliveries sinks v.
Proof.
  revert w. induction sinks as [|x l IH]; intros w; simpl; [done|].
  destruct (send Call Send x v w) as [w1|w1]; [|done].
  specialize (IH w1). destruct (deliver Call Send l v w1) as [log out].
  simpl in *. intros Hout. by rewrite IH.
Qed.

Lemma deliver_all_return sinks v w :
  (∀ x w0, x ∈ sinks → ∃ w1, send Call Send x v w0 = Returns w1) →
  ∃ w', deliver Call Send sinks v w = (deliveries sinks v, Returns w').
Proof.
  revert w. induction sinks as [|x l IH]; intros w Hok; simpl.
  - by exists w.
  - destruct (Hok x w) as [w1 ->]; [apply list_elem_of_here|].
    destruct (IH w1) as [w' ->].
    { intros y w0 Hy. apply Hok. by apply list_elem_of_further. }
    by exists w'.
Qed.

Lemma deliver_app pre post v w w1 :
  deliver Call Send pre v w = (deliveries pre v, Returns w1) →
  deliver Call Send (pre ++ post) v w
  = (deliveries pre v ++ (deliver Call Send post v w1).1,
     (deliver Call Send post v w1).2).
Proof.
  revert w. induction pre as [|x l IH]; intros w; simpl.
  - intros [= ->]. by destruct (deliver Call Send post v w1).
  - destruct (send Call Send x v w) as [w2|w2].
    + destruct (deliver Call Send l v w2) as [log out] eqn:Hl.
      intros [= Hlog ->]. rewrite (IH w2) by (by rewrite Hl, Hlog).
      by destruct (deliver Call Send post v w1).
    + intros Hp. discriminate Hp.
Qed.

(** C5. publish looks up the list of the event's run-time type and
    enters the sinks of that list one after the other, in list order,
    each with the event: the log is an initial part of the list's
    deliveries, and it is all of them when publish returns, which it
    does when no sink panics.  When the type has no list nothing is
    delivered and publish returns with the world as it was.  List order
    is the order of registration: add puts a sink behind those the list
    holds. *)
Theorem publish_delivers_in_list_order (σ : mapheap) (s : subscriptions)
    (e : iface) (w : World) :
  let sinks := default [] (contents σ s !! TypeOf e) in
  let r := publish Call Send σ s e w in
  r.1 `prefix_of` deliveries sinks (ValueOf e)
  ∧ (∀ w', r.2 = Returns w' → r.1 = deliveries sinks (ValueOf e))
  ∧ ((∀ x w0, x ∈ sinks →
        ∃ w1, send Call Send x (ValueOf e) w0 = Returns w1) →
     ∃ w', r = (deliveries sinks (ValueOf e), Returns w'))
  ∧ (contents σ s !! TypeOf e = None → r = ([], Returns w))
  ∧ (∀ x, let r' := add s (TypeOf e) x σ in
          default [] (contents r'.2 r'.1 !! TypeOf e) = sinks ++ [x]).
Proof.
  intros sinks r.
  assert ((index σ s (TypeOf e)).1 = sinks) as Hidx.
  { unfold index, sinks. by destruct (contents σ s !! TypeOf e). }
  subst r. unfold publish. rewrite Hidx. split_and!.
  - apply deliver_prefix.
  - intros w'. apply deliver_returns.
  - apply deliver_all_return.
  - intros Hnone. subst sinks. by rewrite Hnone.
  - intros x. rewrite add_spec. cbn [fst snd].
    by rewrite (contents_made σ), lookup_insert_eq, Hidx.
Qed.

(** C7. When the sinks before [x] in the list have returned and [x]
    panics, publish ends with that panic, in the world as [x] left it:
    the log holds the sinks before [x] and [x] itself, once each, and
    none of the sinks after [x]. *)
Theorem publish_panic_aborts_delivery (σ : mapheap) (s : subscriptions)
    (e : iface) (pre post : list sink) (x : sink) (w w1 w2 : World) :
  contents σ s !! TypeOf e = Some (pre ++ x :: post) →
  deliver Call Send pre (ValueOf e) w
    = (deliveries pre (ValueOf e), Returns w1) →
  send Call Send x (ValueOf e) w1 = Panics w2 →
  publish Call Send σ s e w
  = (deliveries (pre ++ [x]) (ValueOf e), Panics w2).
Proof.
  intros Hk Hpre Hx. unfold publish, index. rewrite Hk.
  cbn [fst]. rewrite (deliver_app _ _ _ _ _ Hpre). simpl. rewrite Hx.
  cbn [fst snd]. unfold deliveries. by rewrite fmap_app.
Qed.

End Delivery.

(** ** The dispatcher *)

Lemma newSink_inr l p T s :
  newSink l p = inr (T, s) → sptr s = p ∧ KindOf T ≠ Interface.
Proof.
  unfold newSink. destruct (TypeOf l) as [lt|]; [|done].
  repeat (case_decide || case_match || simplify_eq/=); try done;
    by intros [= <- <-].
Qed.

(** What a successful Subscribe leaves behind. *)
Lemma Subscribe_inr l h T s :
  newSink l (nsinks h) = inr (T, s) →
  ∃ h', Subscribe l h
        = (Some (mkCancel (length (onces h)) (Some T) s), None, h')
    ∧ registry h'
      = <[Some T := default [] (registry h !! Some T) ++ [s]]> (registry h)
    ∧ onces h' = onces h ++ [false]
    ∧ nsinks h' = S (nsinks h).
Proof.
  intros Hnew. unfold Subscribe. rewrite Hnew, add_spec. cbn.
  eexists. split; [done|]. unfold registry. cbn [heap cell load].
  rewrite (contents_made (heap h)), index_fst. done.
Qed.

Lemma Subscribe_inl l h err :
  newSink l (nsinks h) = inl err → Subscribe l h = (None, Some err, h).
Proof. intros Hnew. unfold Subscribe. by rewrite Hnew. Qed.

(** What calling a Cancel closure does. *)
Lemma call_Cancel_spec k h :
  (onces h !! c_once k = Some false
   ∧ registry (call_Cancel k h)
     = alter (others (c_sink k)) (c_eventType k) (registry h)
   ∧ onces (call_Cancel k h) = <[c_once k := true]> (onces h)
   ∧ nsinks (call_Cancel k h) = nsinks h)
  ∨ (onces h !! c_once k ≠ Some false ∧ call_Cancel k h = h).
Proof.
  unfold call_Cancel.
  destruct (onces h !! c_once k) as [[]|] eqn:Ho; [by right| |by right].
  left. split; [done|].
  pose proof (remove_contents (load h) (c_eventType k) (c_sink k) (heap h))
    as Hrc.
  destruct (remove (load h) (c_eventType k) (c_sink k) (heap h))
    as [new σ]. by cbn in *.
Qed.

Lemma call_Cancel_idem k h :
  call_Cancel k (call_Cancel k h) = call_Cancel k h.
Proof.
  destruct (call_Cancel_spec k h) as [(Ho & _ & Hon & _)|[_ Heq]].
  - unfold call_Cancel at 1. rewrite Hon.
    rewrite list_lookup_insert_eq by (by eapply lookup_lt_Some). done.
  - by rewrite !Heq.
Qed.

(** *** What holds of every hub a client can get to *)

Lemma lookup_alter_others (m : submap) t x t' l' :
  alter (others x) t m !! t' = Some l' →
  ∃ l, m !! t' = Some l ∧ l' = if decide (t' = t) then others x l else l.
Proof.
  destruct (decide (t' = t)) as [->|Hne].
  - rewrite lookup_alter_eq. destruct (m !! t) as [l|]; [|done].
    intros [= <-]. by exists l.
  - rewrite lookup_alter_ne by done. intros Hl. by exists l'.
Qed.

Lemma Forall_others {P : sink → Prop} x l :
  Forall P l → Forall P (others x l).
Proof.
  rewrite !list.Forall_forall. intros HF c Hc. apply HF.
  by apply list_elem_of_filter in Hc as [_ ?].
Qed.

Lemma hub_inv_start : hub_inv start.
Proof. by constructor. Qed.

Lemma hub_inv_Sub c l : hub_inv c → hub_inv (step c (Sub l)).
Proof.
  intros [Hnil Hlen Hh Hinj Hf Hown]. destruct c as [h ks]. cbn in *.
  destruct (newSink l (nsinks h)) as [err|[T s]] eqn:Hnew.
  { rewrite (Subscribe_inl _ _ _ Hnew). by constructor. }
  destruct (Subscribe_inr _ _ _ _ Hnew) as (h' & -> & Hreg & Hon & Hns).
  apply newSink_inr in Hnew as [Hs _].
  set (k := mkCancel (length (onces h)) (Some T) s).
  assert (∀ i k', (ks ++ [k]) !! i = Some k' →
            (ks !! i = Some k' ∧ i < length ks) ∨ (i = length ks ∧ k' = k))
    as Hcase.
  { intros i k' Hi. apply lookup_app_Some in Hi as [Hi|[Hge Hi]].
    - left. split; [done|]. by eapply lookup_lt_Some.
    - right. apply list_lookup_singleton_Some in Hi as [Hi <-].
      split; [lia|done]. }
  constructor; cbn [the_hub handles].
  - rewrite Hreg. by rewrite lookup_insert_ne.
  - rewrite Hon, !length_app. simpl. lia.
  - intros i k' Hi. rewrite Hns.
    destruct (Hcase _ _ Hi) as [[Hi' _]|[-> ->]].
    + destruct (Hh _ _ Hi'). split; [done|lia].
    + simpl. split; [lia|lia].
  - intros i j ki kj Hi Hj Heq.
    destruct (Hcase _ _ Hi) as [[Hi' _]|[-> ->]],
             (Hcase _ _ Hj) as [[Hj' _]|[-> ->]].
    + by eapply Hinj.
    + destruct (Hh _ _ Hi'). simpl in Heq. lia.
    + destruct (Hh _ _ Hj'). simpl in Heq. lia.
    + done.
  - intros i k' Hi Ho t l' Hl'. rewrite Hon in Ho.
    destruct (Hcase _ _ Hi) as [[Hi' Hlt]|[-> ->]].
    2:{ rewrite Hlen, lookup_app_r, Nat.sub_diag in Ho by lia. done. }
    rewrite lookup_app_l in Ho by lia.
    destruct (Hh _ _ Hi') as [_ Hp].
    rewrite Hreg in Hl'. destruct (decide (t = Some T)) as [->|Hne].
    + rewrite lookup_insert_eq in Hl'. injection Hl' as <-.
      apply Forall_app. split.
      * destruct (registry h !! Some T) as [old|] eqn:Hold; simpl; [|done].
        by eapply Hf.
      * apply Forall_singleton. lia.
    + rewrite lookup_insert_ne in Hl' by done. by eapply Hf.
  - intros t l' x Hl' Hx. rewrite Hreg in Hl'.
    assert (∀ old, registry h !! t = Some old → x ∈ old →
              ∃ i k', (ks ++ [k]) !! i = Some k' ∧ c_sink k' = x
                      ∧ c_eventType k' = t) as Hold.
    { intros old Ho Hxo. destruct (Hown _ _ _ Ho Hxo) as (i & k' & Hi & ?).
      exists i, k'. split; [|done]. by apply lookup_app_l_Some. }
    destruct (decide (t = Some T)) as [->|Hne].
    + rewrite lookup_insert_eq in Hl'. injection Hl' as <-.
      apply elem_of_app in Hx as [Hx|Hx].
      * destruct (registry h !! Some T) as [old|] eqn:Ho; simpl in Hx.
        -- by eapply Hold.
        -- by apply elem_of_nil in Hx.
      * apply list_elem_of_singleton in Hx as ->.
        exists (length ks), k. split; [|done].
        rewrite lookup_app_r, Nat.sub_diag by lia. done.
    + rewrite lookup_insert_ne in Hl' by done. by eapply Hold.
Qed.

Lemma hub_inv_Can c i : hub_inv c → hub_inv (step c (Can i)).
Proof.
  intros Hinv. pose proof Hinv as [Hnil Hlen Hh Hinj Hf Hown].
  destruct c as [h ks]. cbn in *.
  destruct (ks !! i) as [k|] eqn:Hi; [|done].
  destruct (call_Cancel_spec k h) as [(Ho & Hreg & Hon & Hns)|[_ ->]];
    [|done].
  destruct (Hh _ _ Hi) as [Hki _].
  constructor; cbn [the_hub handles].
  - rewrite Hreg.
    destruct (alter (others (c_sink k)) (c_eventType k) (registry h) !! None)
      as [l'|] eqn:Hl'; [|done].
    apply lookup_alter_others in Hl' as (l & Hl & _). congruence.
  - by rewrite Hon, length_insert.
  - intros j kj Hj. rewrite Hns. by apply Hh.
  - done.
  - intros j kj Hj Hoj t l' Hl'. rewrite Hreg in Hl'.
    apply lookup_alter_others in Hl' as (l & Hl & ->).
    rewrite Hon, Hki in Hoj.
    destruct (decide (j = i)) as [->|Hne].
    + assert (kj = k) as -> by congruence.
      case_decide as Ht.
      * apply list.Forall_forall. intros x Hx.
        by apply list_elem_of_filter in Hx as [? _].
      * apply list.Forall_forall. intros x Hx Heq.
        destruct (Hown _ _ _ Hl Hx) as (i' & k' & Hi' & <- & Hty).
        assert (i' = i) as -> by (by eapply Hinj).
        assert (k' = k) as -> by congruence. done.
    + rewrite list_lookup_insert_ne in Hoj by done.
      pose proof (Hf _ _ Hj Hoj _ _ Hl) as HF.
      case_decide; [by apply Forall_others|done].
  - intros t l' x Hl' Hx. rewrite Hreg in Hl'.
    apply lookup_alter_others in Hl' as (l & Hl & ->).
    eapply Hown; [done|].
    case_decide; [|done]. by apply list_elem_of_filter in Hx as [_ ?].
Qed.

Lemma hub_inv_step c o : hub_inv c → hub_inv (step c o).
Proof. destruct o; [apply hub_inv_Sub|apply hub_inv_Can]. Qed.

Lemma hub_inv_run ops c : hub_inv c → hub_inv (run ops c).
Proof.
  revert c. induction ops as [|o ops IH]; intros c Hc; [done|].
  apply IH. by apply hub_inv_step.
Qed.

(** *** Counting deliveries *)

Lemma occurrences_cons x c l :
  occurrences x (c :: l)
  = (if decide (sptr c = sptr x) then 1 else 0) + occurrences x l.
Proof. unfold occurrences. rewrite filter_cons. by case_decide. Qed.

Lemma occurrences_app x l1 l2 :
  occurrences x (l1 ++ l2) = occurrences x l1 + occurrences x l2.
Proof. unfold occurrences. by rewrite list.filter_app, length_app. Qed.

Lemma occurrences_others_ne x y l :
  sptr x ≠ sptr y → occurrences x (others y l) = occurrences x l.
Proof.
  intros Hne. induction l as [|c l IH]; [done|].
  unfold others in *. rewrite filter_cons, !occurrences_cons.
  case_decide as Hc.
  - by rewrite occurrences_cons, IH.
  - rewrite IH. rewrite decide_False; [done|]. congruence.
Qed.

Lemma entered_cons x d log :
  entered x (d :: log)
  = (if decide (sptr d.1 = sptr x) then 1 else 0) + entered x log.
Proof. unfold entered. rewrite filter_cons. by case_decide. Qed.

Section Counting.
Context {World : Type}.
Variable Call : rValue → list rValue → World → outcome World.
Variable Send : rValue → rValue → World → outcome World.

Lemma Publish_deliver e h (w : World) :
  Publish Call Send e h w
  = deliver Call Send (sinks_for h (TypeOf e)) (ValueOf e) w.
Proof. unfold Publish, publish. by rewrite index_fst. Qed.

Lemma deliver_values l v (w : World) d :
  d ∈ (deliver Call Send l v w).1 → d.2 = v ∧ d.1 ∈ l.
Proof.
  intros Hd.
  pose proof (deliver_prefix Call Send l v w) as [rest Hrest].
  assert (d ∈ deliveries l v) as Hin.
  { rewrite Hrest. apply elem_of_app. by left. }
  apply list_elem_of_fmap in Hin as (x & -> & Hx). done.
Qed.

Lemma entered_le x l v (w : World) :
  entered x (deliver Call Send l v w).1 ≤ occurrences x l.
Proof.
  revert w. induction l as [|c l IH]; intros w; simpl; [done|].
  rewrite occurrences_cons. destruct (send Call Send c v w) as [w'|w'].
  - specialize (IH w'). destruct (deliver Call Send l v w') as [log out].
    cbn [fst] in *. rewrite entered_cons. cbn [fst]. lia.
  - cbn [fst]. rewrite entered_cons. cbn [fst].
    change (entered x []) with 0. lia.
Qed.

Lemma entered_returns x l v (w w' : World) :
  (deliver Call Send l v w).2 = Returns w' →
  entered x (deliver Call Send l v w).1 = occurrences x l.
Proof.
  intros Hret. rewrite (deliver_returns _ _ _ _ _ _ Hret).
  clear Hret. induction l as [|c l IH]; [done|].
  unfold deliveries in *. rewrite fmap_cons, entered_cons, occurrences_cons.
  by rewrite IH.
Qed.

Lemma entered_ahead x l v (w w1 : World) :
  deliver Call Send (ahead_of x l) v w
    = (deliveries (ahead_of x l) v, Returns w1) →
  1 ≤ occurrences x l →
  1 ≤ entered x (deliver Call Send l v w).1.
Proof.
  revert w. induction l as [|c l IH]; intros w; simpl.
  { intros _ Hocc. unfold occurrences in Hocc. simpl in Hocc. lia. }
  rewrite occurrences_cons. case_decide as Hc.
  - intros _ _. destruct (send Call Send c v w) as [w'|w'].
    + destruct (deliver Call Send l v w') as [log out]. cbn [fst].
      rewrite entered_cons. cbn [fst]. rewrite decide_True by done. lia.
    + cbn [fst]. rewrite entered_cons. cbn [fst].
      rewrite decide_True by done. lia.
  - simpl. destruct (send Call Send c v w) as [w'|w'].
    2:{ intros Hp. discriminate Hp. }
    intros Hah Hocc. specialize (IH w').
    destruct (deliver Call Send (ahead_of x l) v w') as [log' out'].
    destruct (deliver Call Send l v w') as [log out]. cbn [fst] in *.
    rewrite entered_cons. cbn [fst].
    injection Hah as -> ->. specialize (IH eq_refl). lia.
Qed.

Lemma deliver_snoc l x v (w : World) :
  deliver Call Send (l ++ [x]) v w
  = match deliver Call Send l v w with
    | (log, Returns w') => (log ++ [(x, v)], send Call Send x v w')
    | (log, Panics w') => (log, Panics w')
    end.
Proof.
  revert w. induction l as [|c l IH]; intros w; simpl.
  - by destruct (send Call Send x v w).
  - destruct (send Call Send c v w) as [w'|w']; [|done].
    rewrite IH. by destruct (deliver Call Send l v w') as [log [w2|w2]].
Qed.

End Counting.

(** *** Subscriptions over time *)

Lemma inv_alloc c t l :
  hub_inv c → registry (the_hub c) !! t = Some l →
  Forall (λ x, sptr x < nsinks (the_hub c)) l.
Proof.
  intros Hinv Hl. apply list.Forall_forall. intros x Hx.
  destruct (inv_owner _ Hinv _ _ _ Hl Hx) as (i & k & Hi & <- & _).
  by destruct (inv_handle _ Hinv _ _ Hi).
Qed.

Lemma step_Sub_ok c l k h1 :
  Subscribe l (the_hub c) = (Some k, None, h1) →
  step c (Sub l) = mkClient h1 (handles c ++ [k]).
Proof. intros HS. simpl. by rewrite HS. Qed.

Lemma step_handles c o i k :
  handles c !! i = Some k → handles (step c o) !! i = Some k.
Proof.
  intros Hi. destruct o as [l|j]; simpl.
  - destruct (Subscribe l (the_hub c)) as [[[k'|] ?] h']; simpl; [|done].
    by apply lookup_app_l_Some.
  - by destruct (handles c !! j).
Qed.

Lemma run_handles ops c i k :
  handles c !! i = Some k → handles (run ops c) !! i = Some k.
Proof.
  revert c. induction ops as [|o ops IH]; intros c Hi; [done|].
  apply IH. by apply step_handles.
Qed.

(** A step other than the call of closure [i] leaves the sink of that
    closure where it is, as often as it is. *)
Lemma step_keeps c o i k t :
  hub_inv c → handles c !! i = Some k → o ≠ Can i →
  occurrences (c_sink k) (sinks_for (the_hub (step c o)) t)
  = occurrences (c_sink k) (sinks_for (the_hub c) t).
Proof.
  intros Hinv Hi Ho. unfold sinks_for. destruct c as [h ks].
  destruct o as [l|j]; cbn [step the_hub handles] in *.
  - destruct (newSink l (nsinks h)) as [err|[T s]] eqn:Hnew.
    { by rewrite (Subscribe_inl _ _ _ Hnew). }
    destruct (Subscribe_inr _ _ _ _ Hnew) as (h' & -> & Hreg & _).
    cbn [the_hub]. rewrite Hreg.
    destruct (decide (t = Some T)) as [->|Hne].
    + rewrite lookup_insert_eq. cbn [default from_option id].
      rewrite occurrences_app, occurrences_cons.
      apply newSink_inr in Hnew as [Hs _].
      destruct (inv_handle _ Hinv _ _ Hi) as [_ Hlt]. cbn in Hlt.
      rewrite decide_False by lia.
      change (occurrences (c_sink k) []) with 0. lia.
    + by rewrite lookup_insert_ne.
  - destruct (ks !! j) as [kj|] eqn:Hj; [|done]. cbn [the_hub].
    destruct (call_Cancel_spec kj h) as [(_ & Hreg & _)|[_ ->]]; [|done].
    rewrite Hreg.
    destruct (decide (t = c_eventType kj)) as [->|Hne].
    + rewrite lookup_alter_eq.
      destruct (registry h !! c_eventType kj) as [old|]; [|done].
      cbn. apply occurrences_others_ne. intros Heq.
      apply Ho. f_equal. by eapply (inv_inj _ Hinv j i).
    + by rewrite lookup_alter_ne.
Qed.

Lemma run_keeps ops c i k t :
  hub_inv c → handles c !! i = Some k → Can i ∉ ops →
  occurrences (c_sink k) (sinks_for (the_hub (run ops c)) t)
  = occurrences (c_sink k) (sinks_for (the_hub c) t).
Proof.
  revert c. induction ops as [|o ops IH]; intros c Hinv Hi Hno; [done|].
  cbn [run foldl]. change (foldl step (step c o) ops) with (run ops (step c o)).
  rewrite (IH _ (hub_inv_step _ o Hinv) (step_handles _ o _ _ Hi)).
  - apply (step_keeps _ _ i); [done..|].
    intros ->. apply Hno, list_elem_of_here.
  - intros Hin. by apply Hno, list_elem_of_further.
Qed.

(** Right after a subscription its sink stands once in the list of its
    event type and in no other list. *)
Lemma Subscribe_occurrences c l T s h' k :
  hub_inv c → newSink l (nsinks (the_hub c)) = inr (T, s) →
  Subscribe l (the_hub c) = (Some k, None, h') →
  c_sink k = s ∧ c_eventType k = Some T
  ∧ ∀ t, occurrences s (sinks_for h' t)
         = if decide (t = Some T) then 1 else 0.
Proof.
  intros Hinv Hnew HS.
  destruct (Subscribe_inr _ _ _ _ Hnew) as (h1 & HS' & Hreg & _).
  rewrite HS in HS'. injection HS' as -> ->. split_and!; [done..|].
  apply newSink_inr in Hnew as [Hs _].
  assert (∀ t, occurrences s (default [] (registry (the_hub c) !! t)) = 0)
    as Hold.
  { intros t. destruct (registry (the_hub c) !! t) as [old|] eqn:Ho; [|done].
    apply occurrences_none, list.Forall_forall. intros x Hx.
    pose proof (inv_alloc _ _ _ Hinv Ho) as Hall.
    rewrite list.Forall_forall in Hall. specialize (Hall x Hx). lia. }
  intros t. unfold sinks_for. rewrite Hreg. case_decide as Ht.
  - subst t. rewrite lookup_insert_eq. cbn [default from_option id].
    rewrite occurrences_app, Hold, occurrences_cons.
    by rewrite decide_True.
  - rewrite lookup_insert_ne by done. apply Hold.
Qed.

(** *** Subscribe and Publish *)

Lemma newSink_func f T p :
  typ f = FuncOf [T] [] → KindOf T ≠ Interface →
  newSink (Some f) p = inr (T, mkSink p (sinkFunc (Some f))).
Proof.
  intros Hf HT. unfold newSink. cbn. rewrite Hf. cbn.
  rewrite (decide_True (P := Func = Func)) by done.
  by rewrite decide_False.
Qed.

(** C1. A function [f] of one parameter of type [T], not an interface,
    and no result is accepted by Subscribe on any hub a client can get
    to.  From then on, as long as the returned closure is not called, a
    Publish never enters the new sink for an event of another type; for
    an event of type [T] it enters it at most once, with that event, and
    exactly once when Publish returns, and more generally when the sinks
    standing before it in the list return.  Right after the Subscribe, a
    Publish of such an event does what it did before and then, unless
    that ended in a panic, calls [f.Call([e])]; on a new hub the log of
    the Publish is this one delivery. *)
Theorem subscribed_function_receives_its_events
    (ops : list op) (f : Value) (T : rtype) :
  typ f = FuncOf [T] [] → KindOf T ≠ Interface →
  let c0 := run ops start in
  ∃ k h1,
    Subscribe (Some f) (the_hub c0) = (Some k, None, h1)
    ∧ c_sink k = mkSink (nsinks (the_hub c0)) (sinkFunc (Some f))
    ∧ (∀ ops2, Can (length (handles c0)) ∉ ops2 →
       let h2 := the_hub (run ops2 (mkClient h1 (handles c0 ++ [k]))) in
       ∀ (World : Type) Call Send (e : iface) (w : World),
         let r := Publish Call Send e h2 w in
         (∀ d, d ∈ r.1 → d.2 = e)
         ∧ (TypeOf e ≠ Some T → entered (c_sink k) r.1 = 0)
         ∧ (TypeOf e = Some T →
              entered (c_sink k) r.1 ≤ 1
              ∧ (∀ w', r.2 = Returns w' → entered (c_sink k) r.1 = 1)
              ∧ (∀ w1,
                   let before := ahead_of (c_sink k) (sinks_for h2 (Some T)) in
                   deliver Call Send before e w
                     = (deliveries before e, Returns w1) →
                   entered (c_sink k) r.1 = 1)))
    ∧ (∀ (World : Type) Call Send (e : iface) (w : World),
         TypeOf e = Some T →
         Publish Call Send e h1 w
         = match Publish Call Send e (the_hub c0) w with
           | (log, Returns w') =>
               (log ++ [(c_sink k, e)], Call (Some f) [e] w')
           | (log, Panics w') => (log, Panics w')
           end)
    ∧ (ops = [] →
       ∀ (World : Type) Call Send (e : iface) (w : World),
         TypeOf e = Some T →
         Publish Call Send e h1 w = ([(c_sink k, e)], Call (Some f) [e] w)).
Proof.
  intros Hf HT c0.
  pose proof (hub_inv_run ops _ hub_inv_start) as Hinv0. fold c0 in Hinv0.
  pose proof (newSink_func f T (nsinks (the_hub c0)) Hf HT) as Hnew.
  destruct (Subscribe_inr _ _ _ _ Hnew) as (h1 & HS & Hreg & _).
  eexists _, h1. split; [exact HS|]. split; [done|].
  destruct (Subscribe_occurrences _ _ _ _ _ _ Hinv0 Hnew HS)
    as (_ & _ & Hocc).
  set (k := mkCancel (length (onces (the_hub c0))) (Some T)
              (mkSink (nsinks (the_hub c0)) (sinkFunc (Some f)))) in *.
  set (s := mkSink (nsinks (the_hub c0)) (sinkFunc (Some f))) in *.
  change (c_sink k) with s. split; [|split].
  - intros ops2 Hno h2 World Call Send e w r.
    pose proof (step_Sub_ok c0 _ _ _ HS) as Hstep.
    pose proof (hub_inv_step _ (Sub (Some f)) Hinv0) as Hinv1.
    rewrite Hstep in Hinv1.
    assert (handles (mkClient h1 (handles c0 ++ [k])) !! length (handles c0)
            = Some k) as Hk.
    { cbn. by rewrite lookup_app_r, Nat.sub_diag by lia. }
    assert (∀ t, occurrences s (sinks_for h2 t)
                 = if decide (t = Some T) then 1 else 0) as Hocc2.
    { intros t. rewrite <-Hocc. subst h2.
      by apply (run_keeps ops2 _ _ k t Hinv1 Hk). }
    subst r. rewrite Publish_deliver. split_and!.
    + intros d Hd. by apply deliver_values in Hd as [? _].
    + intros Hne.
      pose proof (entered_le Call Send s
                    (sinks_for h2 (TypeOf e)) (ValueOf e) w) as Hle.
      rewrite Hocc2, decide_False in Hle by done. lia.
    + intros ->.
      pose proof (entered_le Call Send s
                    (sinks_for h2 (Some T)) (ValueOf e) w) as Hle.
      rewrite Hocc2, decide_True in Hle by done. split_and!.
      * done.
      * intros w' Hret.
        rewrite (entered_returns _ _ _ _ _ _ _ Hret), Hocc2.
        by rewrite decide_True.
      * intros w1 before Hbefore.
        pose proof (entered_ahead Call Send s _ _ _ _ Hbefore) as Hge.
        rewrite Hocc2, decide_True in Hge by done.
        specialize (Hge (le_n 1)). unfold ValueOf in *. lia.
  - intros World Call Send e w He. rewrite !Publish_deliver, He.
    assert (sinks_for h1 (Some T) = sinks_for (the_hub c0) (Some T) ++ [s])
      as -> by (unfold sinks_for; by rewrite Hreg, lookup_insert_eq).
    by rewrite deliver_snoc.
  - intros -> World Call Send e w He. rewrite Publish_deliver.
    unfold sinks_for. rewrite Hreg, He, lookup_insert_eq.
    change (registry (the_hub c0)) with (∅ : submap).
    rewrite lookup_empty. cbn. unfold send, ValueOf. cbn.
    by destruct (Call (Some f) [e] w).
Qed.

(** C10. On a hub that was just made, in whose cell nothing was ever
    stored, Publish of any value delivers nothing and returns with the
    world as it was; so does Publish of nil on every hub a client can
    get to. *)
Theorem publish_on_new_hub_and_of_nil {World : Type}
    (Call : rValue → list rValue → World → outcome World)
    (Send : rValue → rValue → World → outcome World) (w : World) :
  cell New = None
  ∧ load New = nilmap
  ∧ (∀ e, Publish Call Send e New w = ([], Returns w))
  ∧ (∀ ops, Publish Call Send None (the_hub (run ops start)) w
            = ([], Returns w)).
Proof.
  split_and!; [done..|]. intros ops.
  pose proof (hub_inv_run ops _ hub_inv_start) as Hinv.
  rewrite Publish_deliver. unfold sinks_for. cbn [TypeOf fmap option_fmap
    option_map]. by rewrite (inv_nil_key _ Hinv).
Qed.

(** *** Cancel *)

Lemma iter_call_Cancel k h N :
  1 ≤ N → Nat.iter N (call_Cancel k) h = call_Cancel k h.
Proof.
  induction N as [|N IH]; [lia|]. intros _. destruct N as [|N]; [done|].
  change (Nat.iter (S (S N)) (call_Cancel k) h)
    with (call_Cancel k (Nat.iter (S N) (call_Cancel k) h)).
  rewrite IH by lia. apply call_Cancel_idem.
Qed.

(** A registered sink with the pointer of a closure's sink is registered
    under the closure's event type. *)
Lemma inv_owner_type c i k t l x :
  hub_inv c → handles c !! i = Some k →
  registry (the_hub c) !! t = Some l → x ∈ l → sptr x = sptr (c_sink k) →
  t = c_eventType k.
Proof.
  intros Hinv Hi Hl Hx Heq.
  destruct (inv_owner _ Hinv _ _ _ Hl Hx) as (i' & k' & Hi' & <- & <-).
  assert (i' = i) as -> by (by eapply (inv_inj _ Hinv)). congruence.
Qed.

(** C6. The closure returned by a successful Subscribe, called at any
    later time: calling it N ≥ 1 times leaves the hub as one call does;
    the registry after the call is the registry before it with the
    closure's sink dropped from the list of its event type; for every
    type, the sinks that Publish enters are the sinks it entered before
    without that sink, in the same order; and no Publish enters that
    sink. *)
Theorem cancel_is_idempotent_and_selective
    (ops ops2 : list op) (l : iface) (k : Cancel) (h1 : hub) (N : nat) :
  let c0 := run ops start in
  Subscribe l (the_hub c0) = (Some k, None, h1) →
  1 ≤ N →
  let h2 := the_hub (run ops2 (mkClient h1 (handles c0 ++ [k]))) in
  let h3 := call_Cancel k h2 in
  Nat.iter N (call_Cancel k) h2 = h3
  ∧ registry h3 = alter (others (c_sink k)) (c_eventType k) (registry h2)
  ∧ (∀ t, sinks_for h3 t = others (c_sink k) (sinks_for h2 t))
  ∧ (∀ (World : Type) Call Send (e : iface) (w : World),
       Publish Call Send e h3 w
       = deliver Call Send (others (c_sink k) (sinks_for h2 (TypeOf e)))
           (ValueOf e) w
       ∧ entered (c_sink k) (Publish Call Send e h3 w).1 = 0).
Proof.
  intros c0 HS HN h2 h3.
  pose proof (hub_inv_run ops _ hub_inv_start) as Hinv0. fold c0 in Hinv0.
  pose proof (hub_inv_step _ (Sub l) Hinv0) as Hinv1.
  rewrite (step_Sub_ok c0 _ _ _ HS) in Hinv1.
  set (c1 := mkClient h1 (handles c0 ++ [k])) in *.
  set (i := length (handles c0)).
  assert (handles c1 !! i = Some k) as Hk1.
  { subst c1 i. cbn. by rewrite lookup_app_r, Nat.sub_diag by lia. }
  pose proof (hub_inv_run ops2 _ Hinv1) as Hinv2.
  pose proof (run_handles ops2 _ _ _ Hk1) as Hk2.
  set (c2 := run ops2 c1) in *.
  destruct (inv_handle _ Hinv2 _ _ Hk2) as [Honce _].
  (* the registry after the call *)
  assert (registry h3 = alter (others (c_sink k)) (c_eventType k)
                          (registry h2)) as Hreg.
  { subst h3. destruct (call_Cancel_spec k h2) as [(_ & Hr & _)|[Hno Heq]];
      [done|]. rewrite Heq. symmetry. apply alter_others_id. intros l' Hl'.
    eapply (inv_fired _ Hinv2 i k Hk2); [|exact Hl'].
    rewrite Honce in Hno. fold h2.
    destruct (onces h2 !! i) as [[]|] eqn:Ho; [done|done|].
    apply lookup_ge_None in Ho.
    pose proof (inv_handles _ Hinv2) as Hlen. fold h2 in Hlen.
    apply lookup_lt_Some in Hk2. lia. }
  assert (∀ t, sinks_for h3 t = others (c_sink k) (sinks_for h2 t)) as Hsf.
  { intros t. unfold sinks_for. rewrite Hreg.
    destruct (decide (t = c_eventType k)) as [->|Hne].
    - rewrite lookup_alter_eq. by destruct (registry h2 !! c_eventType k).
    - rewrite lookup_alter_ne by done.
      destruct (registry h2 !! t) as [l'|] eqn:Hl'; [|done]. cbn.
      symmetry. apply others_all, list.Forall_forall. intros x Hx Heq.
      apply Hne. by eapply (inv_owner_type c2 i k). }
  split_and!; [by apply iter_call_Cancel|done|done|].
  intros World Call Send e w. rewrite Publish_deliver, Hsf. split; [done|].
  pose proof (entered_le Call Send (c_sink k)
    (others (c_sink k) (sinks_for h2 (TypeOf e))) (ValueOf e) w) as Hle.
  rewrite occurrences_others in Hle. lia.
Qed.

(** *** Subscribe with a listener that is not accepted *)

Lemma newSink_rejects l err p :
  spec_rejects l err → newSink l p = inl err.
Proof.
  destruct 1 as [|v Hf Hc Hm|v ins outs Ht Hn|v ins outs Hf Hc Hm Hn|v el Ht
                 |v T Ht HT|v d T Ht Hd HT|v T Hf Hc Hm HT];
    unfold newSink; cbn; try done.
  - rewrite !decide_False by done.
    destruct (Nat.eqb_spec (NumMethod (typ v)) 1); done.
  - rewrite Ht. cbn. rewrite (decide_True (P := Func = Func)) by done.
    destruct (Nat.eqb_spec (length ins) 1), (Nat.eqb_spec (length outs) 0);
      cbn; try done. lia.
  - rewrite !decide_False by done. unfold NumMethod, MethodFunc.
    rewrite Hm. cbn.
    destruct (Nat.eqb_spec (length ins) 1), (Nat.eqb_spec (length outs) 0);
      cbn; try done. lia.
  - rewrite Ht. cbn. rewrite (decide_False (P := Chan = Func)) by done.
    rewrite (decide_True (P := Chan = Chan)) by done.
    by rewrite (decide_True (P := RecvDir = RecvDir)).
  - rewrite Ht. cbn. rewrite (decide_True (P := Func = Func)) by done.
    by rewrite decide_True.
  - rewrite Ht. cbn. rewrite (decide_False (P := Chan = Func)) by done.
    rewrite (decide_True (P := Chan = Chan)) by done.
    rewrite (decide_False (P := d = RecvDir)) by done.
    by rewrite decide_True.
  - rewrite !decide_False by done. unfold NumMethod, MethodFunc.
    rewrite Hm. cbn. by rewrite decide_True.
Qed.

(** The list is exhaustive: newSink turns down nothing else. *)
Lemma newSink_inl_rejects l err p :
  newSink l p = inl err → spec_rejects l err.
Proof.
  destruct l as [[lt d]|]; unfold newSink; cbn.
  2:{ intros [= <-]. constructor. }
  destruct lt as [k name ms|ins outs|dir el|name]; cbn.
  - rewrite (decide_False (P := _ = Func)) by (by destruct k).
    rewrite (decide_False (P := _ = Chan)) by (by destruct k).
    unfold NumMethod, MethodFunc. cbn.
    destruct ms as [|[mi mo] [|m2 ms]]; cbn.
    + intros [= <-]. apply rej_methods; cbn; by destruct k.
    + destruct (Nat.eqb_spec (length mi) 1) as [Hi|Hi],
               (Nat.eqb_spec (length mo) 0) as [Ho|Ho]; cbn;
        try (intros [= <-];
             apply (rej_method _ mi mo); cbn; [by destruct k..|done|lia]).
      destruct mi as [|T [|? ?]]; try done. destruct mo; [|done]. cbn.
      case_decide as HT; [|done]. intros [= <-].
      apply (rej_method_event _ T); cbn; by destruct k.
    + intros [= <-]. apply rej_methods; cbn; by destruct k.
  - rewrite (decide_True (P := Func = Func)) by done.
    destruct (Nat.eqb_spec (length ins) 1) as [Hi|Hi],
             (Nat.eqb_spec (length outs) 0) as [Ho|Ho]; cbn;
      try (intros [= <-]; apply (rej_func _ ins outs); cbn; [done|lia]).
    destruct ins as [|T [|? ?]]; try done. destruct outs; [|done]. cbn.
    case_decide as HT; [|done]. intros [= <-].
    by apply (rej_func_event _ T).
  - rewrite (decide_False (P := Chan = Func)) by done.
    rewrite (decide_True (P := Chan = Chan)) by done.
    case_decide as Hd.
    + intros [= <-]. subst dir. by apply (rej_chan _ el).
    + case_decide as HT; [|done]. intros [= <-].
      by apply (rej_chan_event _ dir el).
  - rewrite (decide_False (P := Interface = Func)) by done.
    rewrite (decide_False (P := Interface = Chan)) by done.
    cbn. intros [= <-]. by apply rej_methods.
Qed.

(** C2. A candidate of one of the kinds listed by [spec_rejects] makes
    Subscribe return no closure and the error of that kind, and leaves
    the hub, and with it the registry and every later Publish, as they
    were. *)
Theorem subscribe_rejects_and_changes_nothing
    (l : iface) (err : error) (h : hub) :
  spec_rejects l err →
  Subscribe l h = (None, Some err, h)
  ∧ registry (Subscribe l h).2 = registry h
  ∧ (∀ (World : Type) Call Send (e : iface) (w : World),
       Publish Call Send e (Subscribe l h).2 w = Publish Call Send e h w).
Proof.
  intros Hrej.
  pose proof (Subscribe_inl l h err (newSink_rejects _ _ _ Hrej)) as HS.
  by rewrite HS.
Qed.

(** ** The listeners that are accepted *)

Lemma newSink_chan c d T p :
  typ c = ChanOf d T → d ≠ RecvDir → KindOf T ≠ Interface →
  newSink (Some c) p = inr (T, mkSink p (sinkChan (Some c))).
Proof.
  intros Hc Hd HT. unfold newSink. cbn. rewrite Hc. cbn.
  rewrite (decide_False (P := Chan = Func)) by done.
  rewrite (decide_True (P := Chan = Chan)) by done.
  rewrite (decide_False (P := d = RecvDir)) by done.
  by rewrite decide_False.
Qed.

Lemma newSink_method r k name T p :
  typ r = Plain k name [([T], [])] → KindOf T ≠ Interface →
  newSink (Some r) p
  = inr (T, mkSink p (sinkMethod (Some r) (Some (MethodFunc (typ r) 0)))).
Proof.
  intros Hr HT. unfold newSink. cbn. rewrite Hr. cbn.
  rewrite (decide_False (P := _ = Func)) by (by destruct k).
  rewrite (decide_False (P := _ = Chan)) by (by destruct k).
  cbn. by rewrite decide_False.
Qed.

(** What a Subscribe that newSink accepts does to later Publish calls. *)
Lemma Subscribe_then_Publish l h T s :
  newSink l (nsinks h) = inr (T, s) →
  ∃ k h1,
    Subscribe l h = (Some k, None, h1)
    ∧ c_sink k = s ∧ c_eventType k = Some T ∧ c_once k = length (onces h)
    ∧ (∀ t, sinks_for h1 t
            = if decide (t = Some T) then sinks_for h t ++ [s]
              else sinks_for h t)
    ∧ (∀ (World : Type) Call Send (e : iface) (w : World),
         (TypeOf e = Some T →
          Publish Call Send e h1 w
          = match Publish Call Send e h w with
            | (log, Returns w') => (log ++ [(s, e)], send Call Send s e w')
            | (log, Panics w') => (log, Panics w')
            end)
         ∧ (TypeOf e ≠ Some T →
            Publish Call Send e h1 w = Publish Call Send e h w)).
Proof.
  intros Hnew. destruct (Subscribe_inr _ _ _ _ Hnew) as (h1 & HS & Hreg & _).
  assert (∀ t, sinks_for h1 t
               = if decide (t = Some T) then sinks_for h t ++ [s]
                 else sinks_for h t) as Hsf.
  { intros t. unfold sinks_for. rewrite Hreg. case_decide as Ht.
    - subst t. by rewrite lookup_insert_eq.
    - by rewrite lookup_insert_ne. }
  eexists _, h1. split; [exact HS|]. split_and!; [done..|].
  intros World Call Send e w. rewrite !Publish_deliver, Hsf. split.
  - intros He. rewrite decide_True by done. rewrite He.
    by rewrite deliver_snoc.
  - intros He. by rewrite decide_False.
Qed.

(** X1. A channel that is not receive-only and whose element type [T]
    is not an interface is accepted by Subscribe on any hub.  From then
    on a Publish of an event of type [T] does what it did before and
    then, unless that ended in a panic, sends the event on the channel;
    a Publish of another type is what it was. *)
Theorem subscribed_channel_receives_its_events
    (h : hub) (c : Value) (d : ChanDir) (T : rtype) :
  typ c = ChanOf d T → d ≠ RecvDir → KindOf T ≠ Interface →
  ∃ k h1,
    Subscribe (Some c) h = (Some k, None, h1)
    ∧ c_sink k = mkSink (nsinks h) (sinkChan (Some c))
    ∧ c_eventType k = Some T
    ∧ (∀ (World : Type) Call Send (e : iface) (w : World),
         (TypeOf e = Some T →
          Publish Call Send e h1 w
          = match Publish Call Send e h w with
            | (log, Returns w') =>
                (log ++ [(c_sink k, e)], Send (Some c) e w')
            | (log, Panics w') => (log, Panics w')
            end)
         ∧ (TypeOf e ≠ Some T →
            Publish Call Send e h1 w = Publish Call Send e h w)).
Proof.
  intros Hc Hd HT.
  destruct (Subscribe_then_Publish _ h _ _ (newSink_chan c d T _ Hc Hd HT))
    as (k & h1 & HS & Hk & Hty & _ & _ & Hpub).
  exists k, h1. rewrite Hk. split_and!; [done..|].
  intros World Call Send e w. apply Hpub.
Qed.

(** X2. A value whose type is neither function nor channel and has
    exactly one method, with one parameter of a type [T] that is not an
    interface and no result, is accepted by Subscribe on any hub.  From
    then on a Publish of an event of type [T] does what it did before
    and then, unless that ended in a panic, calls the method's function
    with the value as receiver and the event as argument; a Publish of
    another type is what it was. *)
Theorem subscribed_object_receives_its_events
    (h : hub) (r : Value) (pk : plainKind) (name : string) (T : rtype) :
  typ r = Plain pk name [([T], [])] → KindOf T ≠ Interface →
  let m := MethodFunc (typ r) 0 in
  typ m = FuncOf [typ r; T] []
  ∧ ∃ k h1,
      Subscribe (Some r) h = (Some k, None, h1)
      ∧ c_sink k = mkSink (nsinks h) (sinkMethod (Some r) (Some m))
      ∧ c_eventType k = Some T
      ∧ (∀ (World : Type) Call Send (e : iface) (w : World),
           (TypeOf e = Some T →
            Publish Call Send e h1 w
            = match Publish Call Send e h w with
              | (log, Returns w') =>
                  (log ++ [(c_sink k, e)], Call (Some m) [Some r; e] w')
              | (log, Panics w') => (log, Panics w')
              end)
           ∧ (TypeOf e ≠ Some T →
              Publish Call Send e h1 w = Publish Call Send e h w)).
Proof.
  intros Hr HT m. split.
  { subst m. unfold MethodFunc. by rewrite Hr. }
  destruct (Subscribe_then_Publish _ h _ _ (newSink_method r pk name T _ Hr HT))
    as (k & h1 & HS & Hk & Hty & _ & _ & Hpub).
  exists k, h1. rewrite Hk. split_and!; [done..|].
  intros World Call Send e w. apply Hpub.
Qed.

(** X3. Subscribe has two outcomes and no other: a closure, no error
    and a hub with the listener registered; or no closure, an error and
    the hub as it was.  The second happens for exactly the candidates
    of [spec_rejects], and a candidate has one error only. *)
Theorem subscribe_accepts_or_rejects (l : iface) (h : hub) :
  (∃ k h1 T,
     Subscribe l h = (Some k, None, h1)
     ∧ c_eventType k = Some T ∧ KindOf T ≠ Interface
     ∧ sptr (c_sink k) = nsinks h
     ∧ ¬ ∃ err, spec_rejects l err)
  ∨ (∃ err,
       Subscribe l h = (None, Some err, h)
       ∧ spec_rejects l err
       ∧ ∀ err', spec_rejects l err' → err' = err).
Proof.
  destruct (newSink l (nsinks h)) as [err|[T s]] eqn:Hnew.
  - right. exists err. split_and!.
    + by apply Subscribe_inl.
    + by eapply newSink_inl_rejects.
    + intros err' Hrej. apply (newSink_rejects _ _ (nsinks h)) in Hrej.
      congruence.
  - left. destruct (Subscribe_then_Publish _ _ _ _ Hnew)
      as (k & h1 & HS & Hk & Hty & _).
    apply newSink_inr in Hnew as Hs. destruct Hs as [Hp HT].
    exists k, h1, T. rewrite Hk. split_and!; [done..|].
    intros [err Hrej]. apply (newSink_rejects _ _ (nsinks h)) in Hrej.
    congruence.
Qed.

(** X5. Must applied to the results of Subscribe panics with the error
    of the candidate when the candidate is one that is turned down, and
    the hub is then as it was; for every other candidate it returns a
    closure that is not nil. *)
Theorem must_subscribe (l : iface) (h : hub) :
  let r := Subscribe l h in
  match Must r.1.1 r.1.2 with
  | inl err => spec_rejects l err ∧ r.2 = h
  | inr c => (∃ k, c = Some k) ∧ ¬ ∃ err, spec_rejects l err
  end.
Proof.
  intros r. subst r.
  destruct (newSink l (nsinks h)) as [err|[T s]] eqn:Hnew.
  - rewrite (Subscribe_inl _ _ _ Hnew). cbn. split; [|done].
    by eapply newSink_inl_rejects.
  - destruct (Subscribe_inr _ _ _ _ Hnew) as (h1 & -> & _). cbn.
    split; [by eexists|]. intros [err Hrej].
    apply (newSink_rejects _ _ (nsinks h)) in Hrej. congruence.
Qed.

(** ** More on the registry *)

Lemma remove_cases s t x σ :
  remove s t x σ = (s, σ)
  ∨ ∃ existing,
      contents σ s !! t = Some existing
      ∧ remove s t x σ
        = (mapref (length σ),
           σ ++ [<[t := others x existing]> (contents σ s)]).
Proof.
  rewrite remove_spec. destruct (contents σ s !! t) as [existing|] eqn:Hk;
    [|by left].
  cbv zeta. case_decide; [by left|]. right. by exists existing.
Qed.

(** X6. Neither operation takes a key out of the registry: the keys
    after add are the old keys and the given type, the keys after
    remove are the old keys, and the list of the given type is still
    there when remove has emptied it.  So the keys of the registry of a
    hub only grow, whatever a client does. *)
Theorem registry_keys_only_grow (s : subscriptions) (t : Type_) (x : sink)
    (σ : mapheap) (ops : list op) (c : client) :
  let a := add s t x σ in
  let r := remove s t x σ in
  dom (contents a.2 a.1) = {[t]} ∪ dom (contents σ s)
  ∧ dom (contents r.2 r.1) = dom (contents σ s)
  ∧ (∀ l, contents σ s !! t = Some l →
          contents r.2 r.1 !! t = Some (others x l))
  ∧ dom (registry (the_hub c)) ⊆ dom (registry (the_hub (run ops c))).
Proof.
  intros a r. subst a r. split_and!.
  - rewrite add_spec. cbn [fst snd]. rewrite (contents_made σ).
    by rewrite dom_insert_L.
  - rewrite remove_contents. apply set_eq. intros k.
    rewrite !elem_of_dom. destruct (decide (k = t)) as [->|Hne].
    + rewrite lookup_alter_eq. by rewrite fmap_is_Some.
    + by rewrite lookup_alter_ne.
  - intros l Hl. by rewrite remove_contents, lookup_alter_eq, Hl.
  - revert c. induction ops as [|o ops IH]; intros c; [done|].
    cbn [run foldl]. change (foldl step (step c o) ops)
      with (run ops (step c o)).
    etrans; [|apply IH]. destruct o as [l|i]; cbn [step].
    + destruct (newSink l (nsinks (the_hub c))) as [err|[T s']] eqn:Hnew.
      { by rewrite (Subscribe_inl _ _ _ Hnew). }
      destruct (Subscribe_inr _ _ _ _ Hnew) as (h' & -> & Hreg & _).
      cbn [the_hub]. rewrite Hreg, dom_insert_L. set_solver.
    + destruct (handles c !! i) as [k|]; [|done]. cbn [the_hub].
      destruct (call_Cancel_spec k (the_hub c)) as [(_ & Hreg & _)|[_ ->]];
        [|done].
      rewrite Hreg. intros k' Hk'. rewrite elem_of_dom in *.
      destruct (decide (k' = c_eventType k)) as [->|Hne].
      * rewrite lookup_alter_eq. by rewrite fmap_is_Some.
      * by rewrite lookup_alter_ne.
Qed.

(** X11. Removing the same pair a second time returns the very
    registry the first removal returned and allocates nothing. *)
Theorem remove_again_returns_same_instance (s : subscriptions) (t : Type_)
    (x : sink) (σ : mapheap) :
  let r := remove s t x σ in
  remove r.1 t x r.2 = r.
Proof.
  intros r. subst r.
  destruct (remove_cases s t x σ) as [Heq|(existing & Hk & Heq)];
    rewrite Heq; cbn [fst snd]; [done|].
  rewrite remove_spec, (contents_made σ), lookup_insert_eq. cbv zeta.
  rewrite decide_True; [done|].
  apply list.Forall_forall. intros c Hc.
  by apply list_elem_of_filter in Hc as [? _].
Qed.

(** ** More on the dispatcher *)

Lemma ascending_others x l : ascending l → ascending (others x l).
Proof.
  unfold ascending, others. induction 1 as [|a l Hs IH Hall]; [constructor|].
  rewrite filter_cons. case_decide; [|done].
  constructor; [done|]. by apply (Forall_others x).
Qed.

Lemma ascending_snoc x l :
  ascending l → Forall (λ a, sptr a < sptr x) l → ascending (l ++ [x]).
Proof.
  unfold ascending. induction 1 as [|a l Hs IH Hall]; intros Hlt; simpl.
  - repeat constructor.
  - apply Forall_cons in Hlt as [Ha Hlt]. constructor; [by apply IH|].
    apply Forall_app. split; [done|]. by apply Forall_singleton.
Qed.

Lemma ascending_before a b l :
  ascending l → a ∈ l → b ∈ l → sptr a < sptr b → stands_before a b l.
Proof.
  unfold ascending. induction 1 as [|c l Hs IH Hall]; intros Ha Hb Hlt.
  { by apply elem_of_nil in Ha. }
  rewrite list.Forall_forall in Hall.
  apply elem_of_cons in Ha as [->|Ha], Hb as [->|Hb].
  - lia.
  - apply list_elem_of_split in Hb as (l2 & l3 & ->).
    by exists [], l2, l3.
  - specialize (Hall _ Ha). lia.
  - destruct (IH Ha Hb Hlt) as (l1 & l2 & l3 & ->).
    by exists (c :: l1), l2, l3.
Qed.

Lemma Subscribe_heap l h T s :
  newSink l (nsinks h) = inr (T, s) →
  ∃ m h', Subscribe l h
          = (Some (mkCancel (length (onces h)) (Some T) s), None, h')
    ∧ heap h' = heap h ++ [m]
    ∧ load h' = mapref (length (heap h)).
Proof.
  intros Hnew. unfold Subscribe. rewrite Hnew, add_spec. cbn.
  by eexists _, _.
Qed.

Lemma call_Cancel_heap k h :
  (heap (call_Cancel k h) = heap h ∧ load (call_Cancel k h) = load h)
  ∨ ∃ m, heap (call_Cancel k h) = heap h ++ [m]
         ∧ load (call_Cancel k h) = mapref (length (heap h)).
Proof.
  unfold call_Cancel.
  destruct (onces h !! c_once k) as [[]|]; [by left| |by left].
  destruct (remove_cases (load h) (c_eventType k) (c_sink k) (heap h))
    as [->|(existing & _ & ->)]; cbn.
  - left. split; [done|]. unfold load. cbn. by destruct (cell h).
  - right. by eexists.
Qed.

Lemma Subscribe_Some_inv l h k h1 :
  Subscribe l h = (Some k, None, h1) →
  ∃ T s, newSink l (nsinks h) = inr (T, s)
         ∧ k = mkCancel (length (onces h)) (Some T) s.
Proof.
  intros HS. destruct (newSink l (nsinks h)) as [err|[T s]] eqn:Hnew.
  - rewrite (Subscribe_inl _ _ _ Hnew) in HS. discriminate HS.
  - destruct (Subscribe_inr _ _ _ _ Hnew) as (h' & HS' & _).
    rewrite HS in HS'. injection HS' as -> _. by exists T, s.
Qed.

Lemma hub_order_start : hub_order start.
Proof.
  by constructor.
Qed.

Lemma hub_order_Sub c l :
  hub_inv c → hub_order c → hub_order (step c (Sub l)).
Proof.
  intros Hinv [Hv Hkeys Hh Hsort Hlive].
  pose proof (step_keeps c (Sub l)) as Hkeep.
  pose proof (hub_inv_Sub c l Hinv) as Hinv'.
  destruct c as [h ks]. cbn [step the_hub handles] in *.
  destruct (newSink l (nsinks h)) as [err|[T s]] eqn:Hnew.
  { rewrite (Subscribe_inl _ _ _ Hnew) in *. by constructor. }
  destruct (Subscribe_inr _ _ _ _ Hnew) as (h' & HS & Hreg & Hon & Hns).
  destruct (Subscribe_heap _ _ _ _ Hnew) as (m & h'' & HS' & Hheap & Hload).
  rewrite HS in HS'. injection HS' as <-.
  pose proof (Subscribe_occurrences (mkClient h ks) _ _ _ _ _ Hinv Hnew HS)
    as (_ & _ & Hocc).
  rewrite HS in *. cbn [the_hub handles] in *.
  apply newSink_inr in Hnew as [Hs HT].
  set (k := mkCancel (length (onces h)) (Some T) s) in *.
  pose proof (inv_handles _ Hinv) as Hlen. cbn in Hlen.
  assert (∀ i k', (ks ++ [k]) !! i = Some k' →
            (ks !! i = Some k' ∧ i < length ks) ∨ (i = length ks ∧ k' = k))
    as Hcase.
  { intros i k' Hi. apply lookup_app_Some in Hi as [Hi|[Hge Hi]].
    - left. split; [done|]. by eapply lookup_lt_Some.
    - right. apply list_lookup_singleton_Some in Hi as [Hi <-].
      split; [lia|done]. }
  constructor; cbn [the_hub handles].
  - rewrite Hheap, Hload. cbn. rewrite length_app. cbn. lia.
  - intros t l' Hl'. rewrite Hreg in Hl'.
    destruct (decide (t = Some T)) as [->|Hne]; [by exists T|].
    rewrite lookup_insert_ne in Hl' by done. by eapply Hkeys.
  - intros i j ki kj Hi Hj Hij.
    destruct (Hcase _ _ Hi) as [[Hi' Hli]|[-> ->]],
             (Hcase _ _ Hj) as [[Hj' Hlj]|[-> ->]].
    + by eapply Hh.
    + destruct (inv_handle _ Hinv _ _ Hi') as [_ Hlt]. cbn in *. lia.
    + lia.
    + lia.
  - intros t l' Hl'. rewrite Hreg in Hl'.
    destruct (decide (t = Some T)) as [->|Hne].
    + rewrite lookup_insert_eq in Hl'. injection Hl' as <-.
      destruct (registry h !! Some T) as [old|] eqn:Hold; cbn.
      * apply ascending_snoc; [by eapply Hsort|].
        pose proof (inv_alloc _ _ _ Hinv Hold) as Hall. cbn in Hall.
        eapply list.Forall_impl; [exact Hall|]. intros a Ha. cbn in Ha. lia.
      * repeat constructor.
    + rewrite lookup_insert_ne in Hl' by done. by eapply Hsort.
  - intros i k' Hi Ho. rewrite Hon in Ho.
    destruct (Hcase _ _ Hi) as [[Hi' Hli]|[-> ->]].
    + rewrite lookup_app_l in Ho by lia.
      rewrite (Hkeep i k' _ Hinv Hi') by done. by apply (Hlive i).
    + cbn [c_sink c_eventType]. rewrite Hocc. by rewrite decide_True.
Qed.

Lemma hub_order_Can c i :
  hub_inv c → hub_order c → hub_order (step c (Can i)).
Proof.
  intros Hinv [Hv Hkeys Hh Hsort Hlive].
  pose proof (step_keeps c (Can i)) as Hkeep.
  destruct c as [h ks]. cbn [step the_hub handles] in *.
  destruct (ks !! i) as [k|] eqn:Hi; [|by constructor].
  cbn [the_hub handles] in *.
  destruct (inv_handle _ Hinv _ _ Hi) as [Hki _]. cbn in Hki.
  destruct (call_Cancel_spec k h) as [(Ho & Hreg & Hon & Hns)|[Hno Heq]].
  2:{ rewrite Heq in *. by constructor. }
  constructor; cbn [the_hub handles].
  - destruct (call_Cancel_heap k h) as [[-> ->]|(m & -> & ->)]; [done|].
    cbn. rewrite length_app. cbn. lia.
  - intros t l' Hl'. rewrite Hreg in Hl'.
    apply lookup_alter_others in Hl' as (l0 & Hl0 & _). by eapply Hkeys.
  - done.
  - intros t l' Hl'. rewrite Hreg in Hl'.
    apply lookup_alter_others in Hl' as (l0 & Hl0 & ->).
    pose proof (Hsort _ _ Hl0) as Hs0.
    case_decide; [by apply ascending_others|done].
  - intros j kj Hj Hoj. rewrite Hon, Hki in Hoj. rewrite Hki in Ho.
    destruct (decide (j = i)) as [->|Hne].
    { rewrite list_lookup_insert_eq in Hoj by (by eapply lookup_lt_Some).
      discriminate Hoj. }
    rewrite list_lookup_insert_ne in Hoj by done.
    rewrite (Hkeep j kj _ Hinv Hj) by congruence. by apply (Hlive j).
Qed.

Lemma hub_order_run ops c :
  hub_inv c → hub_order c → hub_order (run ops c).
Proof.
  revert c. induction ops as [|o ops IH]; intros c Hinv Hord; [done|].
  apply IH; [by apply hub_inv_step|].
  destruct o; [by apply hub_order_Sub|by apply hub_order_Can].
Qed.

Lemma reachable_inv ops :
  hub_inv (run ops start) ∧ hub_order (run ops start).
Proof.
  split; [apply hub_inv_run, hub_inv_start|].
  apply hub_order_run; [apply hub_inv_start|apply hub_order_start].
Qed.

Lemma run_app ops ops2 c : run (ops ++ ops2) c = run ops2 (run ops c).
Proof. unfold run. by rewrite foldl_app. Qed.

Lemma run_heap_prefix ops c :
  heap (the_hub c) `prefix_of` heap (the_hub (run ops c)).
Proof.
  revert c. induction ops as [|o ops IH]; intros c; [done|].
  cbn [run foldl]. change (foldl step (step c o) ops)
    with (run ops (step c o)).
  etrans; [|apply IH]. destruct o as [l|i]; cbn [step].
  - destruct (newSink l (nsinks (the_hub c))) as [err|[T s]] eqn:Hnew.
    { by rewrite (Subscribe_inl _ _ _ Hnew). }
    destruct (Subscribe_heap _ _ _ _ Hnew) as (m & h' & HS & Hh & _).
    rewrite HS. cbn [the_hub]. rewrite Hh. by apply prefix_app_r.
  - destruct (handles c !! i) as [k|]; [|done]. cbn [the_hub].
    destruct (call_Cancel_heap k (the_hub c)) as [[Hh _]|(m & Hh & _)];
      rewrite Hh; [done|by apply prefix_app_r].
Qed.

Lemma occurrences_pos_elem x l :
  1 ≤ occurrences x l → ∃ c, c ∈ l ∧ sptr c = sptr x.
Proof.
  induction l as [|c l IH]; [cbn; lia|]. rewrite occurrences_cons.
  case_decide as Hc.
  - intros _. exists c. split; [apply list_elem_of_here|done].
  - intros Hocc. destruct IH as (c' & Hc' & Heq); [lia|].
    exists c'. split; [by apply list_elem_of_further|done].
Qed.

Lemma ascending_NoDup l : ascending l → NoDup (sptr <$> l).
Proof.
  unfold ascending. induction 1 as [|a l Hs IH Hall]; cbn; constructor.
  - rewrite list_elem_of_fmap. intros (b & Heq & Hb).
    rewrite list.Forall_forall in Hall. specialize (Hall _ Hb). lia.
  - done.
Qed.

Lemma others_comm x y l : others x (others y l) = others y (others x l).
Proof.
  unfold others. induction l as [|c l IH]; [done|].
  rewrite !filter_cons.
  destruct (decide (sptr c ≠ sptr y)), (decide (sptr c ≠ sptr x));
    rewrite ?filter_cons, ?decide_True, ?decide_False by done;
    by rewrite ?IH.
Qed.

(** The sinks Publish enters after the call of a closure the client
    holds: the old ones without the closure's sink. *)
Lemma call_Cancel_sinks c i k t :
  hub_inv c → handles c !! i = Some k →
  sinks_for (call_Cancel k (the_hub c)) t
  = others (c_sink k) (sinks_for (the_hub c) t).
Proof.
  intros Hinv Hi. unfold sinks_for.
  destruct (inv_handle _ Hinv _ _ Hi) as [Honce _].
  assert (∀ l', registry (the_hub c) !! t = Some l' →
                t ≠ c_eventType k → others (c_sink k) l' = l') as Hother.
  { intros l' Hl' Hne. apply others_all, list.Forall_forall.
    intros x Hx Heq. apply Hne. by eapply (inv_owner_type c i k). }
  destruct (call_Cancel_spec k (the_hub c)) as [(_ & Hreg & _)|[Hno Heq]].
  - rewrite Hreg. destruct (decide (t = c_eventType k)) as [->|Hne].
    + rewrite lookup_alter_eq.
      by destruct (registry (the_hub c) !! c_eventType k).
    + rewrite lookup_alter_ne by done.
      destruct (registry (the_hub c) !! t) as [l'|] eqn:Hl'; [|done].
      cbn. symmetry. by apply Hother.
  - rewrite Heq.
    destruct (registry (the_hub c) !! t) as [l'|] eqn:Hl'; [|done]. cbn.
    symmetry. apply others_all. eapply (inv_fired _ Hinv i k Hi); [|done].
    rewrite Honce in Hno.
    destruct (onces (the_hub c) !! i) as [[]|] eqn:Ho; [done|done|].
    apply lookup_ge_None in Ho. pose proof (inv_handles _ Hinv) as Hlen.
    apply lookup_lt_Some in Hi. lia.
Qed.

(** X4. In the registry of a hub, whatever a client has done, every key
    is a type, not nil, and not an interface type. *)
Theorem registry_keys_are_concrete_types (ops : list op) (t : Type_)
    (l : list sink) :
  registry (the_hub (run ops start)) !! t = Some l →
  ∃ T, t = Some T ∧ KindOf T ≠ Interface
       ∧ ∀ x, x ∈ l →
           ∃ i k, handles (run ops start) !! i = Some k
                  ∧ c_sink k = x ∧ c_eventType k = Some T.
Proof.
  intros Hl. destruct (reachable_inv ops) as [Hinv Hord].
  destruct (ord_keys _ Hord _ _ Hl) as (T & -> & HT).
  exists T. split_and!; [done..|]. intros x Hx.
  by apply (inv_owner _ Hinv _ _ _ Hl Hx).
Qed.

(** X7. The sink of a closure that Subscribe returned stands exactly
    once in the list of its event type as long as the closure has not
    run, in no list once it has run, and never in the list of another
    type; and no list holds a sink twice. *)
Theorem subscription_is_registered_until_cancelled
    (ops : list op) (i : nat) (k : Cancel) :
  handles (run ops start) !! i = Some k →
  let h := the_hub (run ops start) in
  (onces h !! i = Some false ∨ onces h !! i = Some true)
  ∧ (onces h !! i = Some false →
       occurrences (c_sink k) (sinks_for h (c_eventType k)) = 1
       ∧ c_sink k ∈ sinks_for h (c_eventType k))
  ∧ (onces h !! i = Some true →
       ∀ t, occurrences (c_sink k) (sinks_for h t) = 0)
  ∧ (∀ t, t ≠ c_eventType k → occurrences (c_sink k) (sinks_for h t) = 0)
  ∧ (∀ t, NoDup (sptr <$> sinks_for h t)).
Proof.
  intros Hi h. destruct (reachable_inv ops) as [Hinv Hord]. fold h in Hinv.
  assert (∀ t x, x ∈ sinks_for h t → sptr x = sptr (c_sink k) →
                 x = c_sink k ∧ t = c_eventType k) as Hmine.
  { intros t x Hx Heq. unfold sinks_for in Hx.
    destruct (registry h !! t) as [l|] eqn:Hl; [|by apply elem_of_nil in Hx].
    destruct (inv_owner _ Hinv _ _ _ Hl Hx) as (i' & k' & Hi' & <- & <-).
    assert (i' = i) as -> by (by eapply (inv_inj _ Hinv)).
    by assert (k' = k) as -> by congruence. }
  split_and!.
  - pose proof (inv_handles _ Hinv) as Hlen. apply lookup_lt_Some in Hi.
    destruct (onces h !! i) as [[]|] eqn:Ho; [by right|by left|].
    apply lookup_ge_None in Ho. subst h. lia.
  - intros Ho. pose proof (ord_live _ Hord _ _ Hi Ho) as Hocc.
    split; [done|].
    destruct (occurrences_pos_elem (c_sink k) _ (eq_ind_r (le 1) (le_n 1) Hocc))
      as (x & Hx & Heq).
    by destruct (Hmine _ _ Hx Heq) as [<- _].
  - intros Ho t. unfold sinks_for.
    destruct (registry h !! t) as [l|] eqn:Hl; [|done].
    apply occurrences_none. by eapply (inv_fired _ Hinv i k Hi).
  - intros t Hne. apply occurrences_none, list.Forall_forall.
    intros x Hx Heq. by destruct (Hmine _ _ Hx Heq) as [_ ?].
  - intros t. apply ascending_NoDup. unfold sinks_for.
    destruct (registry h !! t) as [l|] eqn:Hl; [|constructor].
    by eapply (ord_sorted _ Hord).
Qed.

(** X8. Of two closures for the same event type that have not run,
    the sink of the one returned first stands before the sink of the
    other in the list of that type, whatever was subscribed and
    cancelled in between; so a Publish that returns has entered it
    first. *)
Theorem delivery_order_is_subscription_order
    (ops : list op) (i j : nat) (ki kj : Cancel) :
  handles (run ops start) !! i = Some ki →
  handles (run ops start) !! j = Some kj →
  i < j →
  c_eventType ki = c_eventType kj →
  let h := the_hub (run ops start) in
  onces h !! i = Some false →
  onces h !! j = Some false →
  stands_before (c_sink ki) (c_sink kj) (sinks_for h (c_eventType ki))
  ∧ ∀ (World : Type) Call Send (e : iface) (w w' : World),
      TypeOf e = c_eventType ki →
      (Publish Call Send e h w).2 = Returns w' →
      ∃ g1 g2 g3,
        (Publish Call Send e h w).1
        = g1 ++ (c_sink ki, e) :: g2 ++ (c_sink kj, e) :: g3.
Proof.
  intros Hi Hj Hij Hty h Hoi Hoj.
  destruct (reachable_inv ops) as [Hinv Hord]. fold h in Hinv.
  assert (∀ n k, handles (run ops start) !! n = Some k →
                 onces h !! n = Some false →
                 c_sink k ∈ sinks_for h (c_eventType k)) as Hin.
  { intros n k Hn Hon. pose proof (ord_live _ Hord _ _ Hn Hon) as Hocc.
    destruct (occurrences_pos_elem (c_sink k) _
                (eq_ind_r (le 1) (le_n 1) Hocc)) as (x & Hx & Heq).
    unfold sinks_for in Hx. fold h in Hx.
    destruct (registry h !! c_eventType k) as [l|] eqn:Hl;
      [|by apply elem_of_nil in Hx].
    destruct (inv_owner _ Hinv _ _ _ Hl Hx) as (n' & k' & Hn' & Hs & _).
    rewrite <-Hs in Heq.
    assert (n' = n) as -> by (by eapply (inv_inj _ Hinv)).
    assert (k' = k) as -> by congruence.
    subst x. unfold sinks_for. by rewrite Hl. }
  assert (stands_before (c_sink ki) (c_sink kj)
            (sinks_for h (c_eventType ki))) as Hbefore.
  { apply ascending_before.
    - unfold sinks_for.
      destruct (registry h !! c_eventType ki) as [l|] eqn:Hl; [|constructor].
      by eapply (ord_sorted _ Hord).
    - by apply (Hin i).
    - rewrite Hty. by apply (Hin j).
    - by eapply (ord_handles _ Hord i j). }
  split; [exact Hbefore|].
  intros World Call Send e w w' He Hret. rewrite Publish_deliver in *.
  rewrite (deliver_returns _ _ _ _ _ _ Hret), He.
  destruct Hbefore as (l1 & l2 & l3 & ->).
  exists (deliveries l1 (ValueOf e)), (deliveries l2 (ValueOf e)),
         (deliveries l3 (ValueOf e)).
  unfold deliveries. by rewrite !fmap_app, !fmap_cons, fmap_app, fmap_cons.
Qed.

(** X9. Nothing a client does writes to a map object that exists: the
    heap only grows at its end, the cell always refers to an object of
    the heap, and the registry that was loaded before further Subscribe
    and Cancel calls still reads, and publishes, as it did when it was
    loaded. *)
Theorem loaded_snapshot_is_never_changed (ops ops2 : list op) :
  let h := the_hub (run ops start) in
  let h' := the_hub (run ops2 (run ops start)) in
  valid_ref (heap h) (load h)
  ∧ heap h `prefix_of` heap h'
  ∧ contents (heap h') (load h) = registry h
  ∧ ∀ (World : Type) Call Send (e : iface) (w : World),
      publish Call Send (heap h') (load h) e w = Publish Call Send e h w.
Proof.
  intros h h'. destruct (reachable_inv ops) as [_ Hord].
  pose proof (ord_valid _ Hord) as Hv. fold h in Hv.
  pose proof (run_heap_prefix ops2 (run ops start)) as Hpre.
  fold h h' in Hpre.
  assert (contents (heap h') (load h) = registry h) as Hc.
  { destruct Hpre as [rest ->]. by apply contents_prefix. }
  split_and!; [done..|].
  intros World Call Send e w. unfold Publish, publish, index.
  by rewrite Hc.
Qed.

Lemma sinks_for_alloc c t :
  hub_inv c →
  Forall (λ x, sptr x < nsinks (the_hub c)) (sinks_for (the_hub c) t).
Proof.
  intros Hinv. unfold sinks_for.
  destruct (registry (the_hub c) !! t) as [l|] eqn:Hl; [|constructor].
  by eapply inv_alloc.
Qed.

Lemma others_below x l :
  Forall (λ a, sptr a < sptr x) l → others x l = l.
Proof.
  intros Hall. apply others_all. eapply list.Forall_impl; [exact Hall|].
  intros a Ha. cbn in Ha. lia.
Qed.

Lemma others_app x l1 l2 : others x (l1 ++ l2) = others x l1 ++ others x l2.
Proof. unfold others. by rewrite list.filter_app. Qed.

Lemma others_self x : others x [x] = [].
Proof. unfold others. by rewrite filter_cons_False by (cbn; lia). Qed.

(** X10. A Subscribe followed at once by the call of the closure it
    returned leaves every Publish as it was before the Subscribe: the
    lists of all types hold the sinks they held.  The event type stays
    a key of the registry. *)
Theorem subscribe_then_cancel_restores
    (ops : list op) (l : iface) (k : Cancel) (h1 : hub) :
  let h0 := the_hub (run ops start) in
  Subscribe l h0 = (Some k, None, h1) →
  let h2 := call_Cancel k h1 in
  (∀ t, sinks_for h2 t = sinks_for h0 t)
  ∧ (∀ (World : Type) Call Send (e : iface) (w : World),
       Publish Call Send e h2 w = Publish Call Send e h0 w)
  ∧ is_Some (registry h2 !! c_eventType k)
  ∧ onces h2 !! c_once k = Some true.
Proof.
  intros h0 HS h2. destruct (reachable_inv ops) as [Hinv _].
  set (c0 := run ops start) in *.
  pose proof (hub_inv_step _ (Sub l) Hinv) as Hinv1.
  rewrite (step_Sub_ok c0 _ _ _ HS) in Hinv1.
  set (c1 := mkClient h1 (handles c0 ++ [k])) in *.
  assert (handles c1 !! length (handles c0) = Some k) as Hk1.
  { subst c1. cbn. by rewrite lookup_app_r, Nat.sub_diag by lia. }
  destruct (Subscribe_Some_inv _ _ _ _ HS) as (T & s & Hnew & Hk).
  destruct (Subscribe_then_Publish _ _ _ _ Hnew)
    as (k' & h1' & HS' & Hks & Hkt & Hko & Hsf & _).
  fold h0 in HS'. rewrite HS in HS'.
  injection HS' as Hk' Hh1'. subst k' h1'.
  destruct (Subscribe_inr _ _ _ _ Hnew) as (h1' & HS' & Hreg & Hon & _).
  fold h0 in HS'. rewrite HS in HS'. injection HS' as _ Hh1'. subst h1'.
  apply newSink_inr in Hnew as [Hs _].
  pose proof (sinks_for_alloc c0 (Some T) Hinv) as Hall. fold h0 in Hall.
  rewrite <-Hs in Hall.
  assert (∀ t, sinks_for h2 t = sinks_for h0 t) as Hsame.
  { intros t. subst h2.
    pose proof (call_Cancel_sinks c1 _ k t Hinv1 Hk1) as Hcs.
    subst c1. cbn [the_hub] in Hcs. rewrite Hcs.
    rewrite Hsf, Hks. case_decide as Ht.
    - subst t. by rewrite others_app, others_self, app_nil_r, others_below.
    - apply others_below. pose proof (sinks_for_alloc c0 t Hinv) as Hall'.
      fold h0 in Hall'. by rewrite <-Hs in Hall'. }
  assert (onces h1 !! c_once k = Some false) as Ho.
  { rewrite Hon, Hko. by rewrite lookup_app_r, Nat.sub_diag by lia. }
  destruct (call_Cancel_spec k h1) as [(_ & Hreg2 & Hon2 & _)|[Hno _]];
    [|done].
  fold h2 in Hreg2, Hon2.
  split_and!.
  - done.
  - intros World Call Send e w. by rewrite !Publish_deliver, Hsame.
  - rewrite Hreg2, Hkt, lookup_alter_eq, Hreg. by rewrite lookup_insert_eq.
  - rewrite Hon2. apply list_lookup_insert_eq. by eapply lookup_lt_Some.
Qed.

(** X12. The calls of two closures the client holds can be made in
    either order: the lists of all types, and so every Publish, are the
    same afterwards, and both closures have run. *)
Theorem cancellations_commute
    (ops : list op) (i j : nat) (ki kj : Cancel) :
  handles (run ops start) !! i = Some ki →
  handles (run ops start) !! j = Some kj →
  let h := the_hub (run ops start) in
  let hij := call_Cancel kj (call_Cancel ki h) in
  let hji := call_Cancel ki (call_Cancel kj h) in
  (∀ t, sinks_for hij t = sinks_for hji t)
  ∧ (∀ t, sinks_for hij t = others (c_sink ki) (others (c_sink kj)
                                                   (sinks_for h t)))
  ∧ (∀ (World : Type) Call Send (e : iface) (w : World),
       Publish Call Send e hij w = Publish Call Send e hji w).
Proof.
  intros Hi Hj h hij hji. destruct (reachable_inv ops) as [Hinv _].
  set (c := run ops start) in *.
  assert (∀ t, sinks_for hij t
               = others (c_sink kj) (others (c_sink ki) (sinks_for h t)))
    as Hij.
  { intros t. subst hij h.
    pose proof (hub_inv_step _ (Can i) Hinv) as Hinv'.
    pose proof (step_handles c (Can i) _ _ Hj) as Hj'.
    cbn [step] in Hinv', Hj'. rewrite Hi in Hinv', Hj'.
    pose proof (call_Cancel_sinks _ j kj t Hinv' Hj') as Hcs.
    cbn [the_hub] in Hcs. rewrite Hcs.
    by rewrite (call_Cancel_sinks c i ki t Hinv Hi). }
  assert (∀ t, sinks_for hji t
               = others (c_sink ki) (others (c_sink kj) (sinks_for h t)))
    as Hji.
  { intros t. subst hji h.
    pose proof (hub_inv_step _ (Can j) Hinv) as Hinv'.
    pose proof (step_handles c (Can j) _ _ Hi) as Hi'.
    cbn [step] in Hinv', Hi'. rewrite Hj in Hinv', Hi'.
    pose proof (call_Cancel_sinks _ i ki t Hinv' Hi') as Hcs.
    cbn [the_hub] in Hcs. rewrite Hcs.
    by rewrite (call_Cancel_sinks c j kj t Hinv Hj). }
  split_and!.
  - intros t. by rewrite Hij, Hji, others_comm.
  - intros t. by rewrite Hij, others_comm.
  - intros World Call Send e w.
    by rewrite !Publish_deliver, Hij, Hji, others_comm.
Qed.

Lemma newSink_addr l p p' T s :
  newSink l p = inr (T, s) →
  newSink l p' = inr (T, mkSink p' (sobj s)).
Proof.
  unfold newSink. destruct (TypeOf l) as [lt|]; [|done].
  repeat (case_decide || case_match || simplify_eq/=); try done;
    by intros [= <- <-].
Qed.

(** X14. Subscribing the same listener a second time makes a second
    subscription: a second sink for the same listener stands behind
    the first in the list of the event type, so a Publish enters the
    listener twice; the call of either closure takes out its own sink
    and leaves the other. *)
Theorem same_listener_twice_is_two_subscriptions
    (ops : list op) (l : iface) (k1 : Cancel) (h1 : hub) :
  let h0 := the_hub (run ops start) in
  Subscribe l h0 = (Some k1, None, h1) →
  ∃ k2 h2 T,
    Subscribe l h1 = (Some k2, None, h2)
    ∧ c_eventType k1 = Some T ∧ c_eventType k2 = Some T
    ∧ sobj (c_sink k2) = sobj (c_sink k1)
    ∧ sptr (c_sink k2) ≠ sptr (c_sink k1)
    ∧ sinks_for h2 (Some T)
      = sinks_for h0 (Some T) ++ [c_sink k1; c_sink k2]
    ∧ sinks_for (call_Cancel k1 h2) (Some T)
      = sinks_for h0 (Some T) ++ [c_sink k2]
    ∧ sinks_for (call_Cancel k2 h2) (Some T)
      = sinks_for h0 (Some T) ++ [c_sink k1].
Proof.
  intros h0 HS. destruct (reachable_inv ops) as [Hinv _].
  set (c0 := run ops start) in *.
  destruct (Subscribe_Some_inv _ _ _ _ HS) as (T & s1 & Hnew & Hk1).
  destruct (Subscribe_then_Publish _ _ _ _ Hnew)
    as (k' & h1' & HS' & Hks1 & Hkt1 & _ & Hsf1 & _).
  fold h0 in HS'. rewrite HS in HS'.
  injection HS' as Hk' Hh1'. subst k' h1'.
  destruct (Subscribe_inr _ _ _ _ Hnew) as (h1' & HS' & _ & _ & Hns1).
  fold h0 in HS'. rewrite HS in HS'. injection HS' as _ Hh1'. subst h1'.
  pose proof (newSink_addr _ _ (nsinks h1) _ _ Hnew) as Hnew2.
  destruct (Subscribe_then_Publish _ _ _ _ Hnew2)
    as (k2 & h2 & HS2 & Hks2 & Hkt2 & _ & Hsf2 & _).
  apply newSink_inr in Hnew as [Hs1 _].
  exists k2, h2, T.
  (* the two clients *)
  pose proof (hub_inv_step _ (Sub l) Hinv) as Hinv1.
  rewrite (step_Sub_ok c0 _ _ _ HS) in Hinv1.
  pose proof (hub_inv_step _ (Sub l) Hinv1) as Hinv2.
  rewrite (step_Sub_ok (mkClient h1 (handles c0 ++ [k1])) l k2 h2 HS2)
    in Hinv2.
  cbn [handles] in Hinv2.
  set (c2 := mkClient h2 ((handles c0 ++ [k1]) ++ [k2])) in *.
  assert (handles c2 !! length (handles c0) = Some k1) as Hh1.
  { subst c2. cbn. rewrite lookup_app_l by (rewrite length_app; cbn; lia).
    by rewrite lookup_app_r, Nat.sub_diag by lia. }
  assert (handles c2 !! S (length (handles c0)) = Some k2) as Hh2.
  { subst c2. cbn. rewrite lookup_app_r by (rewrite length_app; cbn; lia).
    rewrite length_app. cbn.
    by replace (S (length (handles c0)) - (length (handles c0) + 1)) with 0
      by lia. }
  pose proof (sinks_for_alloc c0 (Some T) Hinv) as Hall. fold h0 in Hall.
  assert (sinks_for h2 (Some T)
          = sinks_for h0 (Some T) ++ [c_sink k1; c_sink k2]) as Hl2.
  { rewrite Hsf2, decide_True by done. rewrite Hsf1, decide_True by done.
    rewrite Hks1, Hks2. by rewrite <-app_assoc. }
  assert (sptr (c_sink k2) = S (sptr (c_sink k1))) as Hp.
  { rewrite Hks1, Hks2, Hs1. cbn. fold h0 in Hns1. by rewrite Hns1. }
  assert (Forall (λ a, sptr a < sptr (c_sink k1)) (sinks_for h0 (Some T)))
    as Hb1.
  { eapply list.Forall_impl; [exact Hall|]. intros a Ha. cbn in Ha.
    rewrite Hks1, Hs1. fold h0 in Ha. lia. }
  assert (Forall (λ a, sptr a < sptr (c_sink k2)) (sinks_for h0 (Some T)))
    as Hb2.
  { eapply list.Forall_impl; [exact Hb1|]. intros a Ha. cbn in Ha. lia. }
  split_and!.
  - done.
  - done.
  - done.
  - by rewrite Hks2, Hks1.
  - lia.
  - done.
  - pose proof (call_Cancel_sinks c2 _ k1 (Some T) Hinv2 Hh1) as Hcs.
    subst c2. cbn [the_hub] in Hcs. rewrite Hcs, Hl2.
    rewrite (others_app (c_sink k1) _ [c_sink k1; c_sink k2]).
    rewrite (others_below _ _ Hb1). f_equal. unfold others.
    rewrite filter_cons_False by (cbn; lia).
    by rewrite filter_cons_True by (cbn; lia).
  - pose proof (call_Cancel_sinks c2 _ k2 (Some T) Hinv2 Hh2) as Hcs.
    subst c2. cbn [the_hub] in Hcs. rewrite Hcs, Hl2.
    rewrite (others_app (c_sink k2) _ [c_sink k1; c_sink k2]).
    rewrite (others_below _ _ Hb2). f_equal. unfold others.
    rewrite filter_cons_True by (cbn; lia).
    by rewrite filter_cons_False by (cbn; lia).
Qed.

Lemma occurrences_ascending x l : ascending l → occurrences x l ≤ 1.
Proof.
  unfold ascending. induction 1 as [|a l Hs IH Hall]; [cbn; lia|].
  rewrite occurrences_cons. case_decide as Ha; [|lia].
  rewrite occurrences_none; [lia|].
  eapply list.Forall_impl; [exact Hall|]. intros b Hb. cbn in Hb. lia.
Qed.

(** X13. A Publish on a hub, whatever a client has done to it, enters
    no sink twice, enters only sinks of the list of the event's type,
    and hands each of them the event it was given. *)
Theorem publish_enters_each_sink_at_most_once
    (ops : list op) {World : Type}
    (Call : rValue → list rValue → World → outcome World)
    (Send : rValue → rValue → World → outcome World)
    (e : iface) (w : World) :
  let h := the_hub (run ops start) in
  let log := (Publish Call Send e h w).1 in
  (∀ x, entered x log ≤ 1)
  ∧ (∀ d, d ∈ log → d.2 = e ∧ d.1 ∈ sinks_for h (TypeOf e))
  ∧ length log ≤ length (sinks_for h (TypeOf e)).
Proof.
  intros h log. subst log. rewrite Publish_deliver.
  destruct (reachable_inv ops) as [_ Hord]. split_and!.
  - intros x. etrans; [apply entered_le|]. apply occurrences_ascending.
    unfold sinks_for. destruct (registry h !! TypeOf e) as [l|] eqn:Hl;
      [|constructor].
    by eapply (ord_sorted _ Hord).
  - intros d Hd. by apply deliver_values in Hd.
  - pose proof (deliver_prefix Call Send (sinks_for h (TypeOf e))
                  (ValueOf e) w) as Hpre.
    apply prefix_length in Hpre. unfold deliveries in Hpre.
    by rewrite length_fmap in Hpre.
Qed.

Lemma filter_ext_elem {A} (P Q : A → Prop) `{!∀ x, Decision (P x)}
    `{!∀ x, Decision (Q x)} (l : list A) :
  (∀ x, x ∈ l → P x ↔ Q x) → filter P l = filter Q l.
Proof.
  induction l as [|a l IH]; intros Hext; [done|].
  rewrite !filter_cons. rewrite IH.
  2:{ intros x Hx. apply Hext. by apply list_elem_of_further. }
  pose proof (Hext a (list_elem_of_here _ _)) as Ha.
  destruct (decide (P a)), (decide (Q a)); tauto || done.
Qed.

Lemma others_cons x a l :
  others x (a :: l)
  = if decide (sptr a ≠ sptr x) then a :: others x l else others x l.
Proof. unfold others. by rewrite filter_cons. Qed.

Lemma live_others (P : Cancel → Prop) `{!∀ k, Decision (P k)}
    (i : nat) (x : sink) (l : list Cancel) :
  (∀ k, k ∈ l → c_once k ≠ i ↔ sptr (c_sink k) ≠ sptr x) →
  c_sink <$> filter (λ k, P k ∧ c_once k ≠ i) l
  = others x (c_sink <$> filter P l).
Proof.
  induction l as [|a l IH]; intros Hext; [done|].
  pose proof (IH (λ k Hk, Hext k (list_elem_of_further _ _ _ Hk))) as IH'.
  pose proof (Hext a (list_elem_of_here _ _)) as Ha.
  rewrite (filter_cons P), (filter_cons (λ k, P k ∧ c_once k ≠ i)).
  destruct (decide (P a)) as [HP|HP].
  - rewrite fmap_cons, others_cons.
    destruct (decide (c_once a ≠ i)) as [Hi|Hi].
    + rewrite decide_True by done. rewrite decide_True by tauto.
      by rewrite fmap_cons, IH'.
    + rewrite decide_False by tauto. by rewrite decide_False by tauto.
  - by rewrite decide_False by tauto.
Qed.

Lemma live_step c o :
  hub_inv c →
  (∀ t, sinks_for (the_hub c) t = live c t) →
  ∀ t, sinks_for (the_hub (step c o)) t = live (step c o) t.
Proof.
  intros Hinv Hlive t.
  assert (∀ k, k ∈ handles c →
               handles c !! c_once k = Some k
               ∧ c_once k < length (onces (the_hub c))) as Hidx.
  { intros k Hk. apply list_elem_of_lookup in Hk as [n Hn].
    destruct (inv_handle _ Hinv _ _ Hn) as [-> _]. split; [done|].
    rewrite <-(inv_handles _ Hinv). by eapply lookup_lt_Some. }
  destruct o as [l|i].
  - pose proof (inv_handles _ Hinv) as Hlen.
    destruct c as [h ks]. cbn [step the_hub handles] in *.
    destruct (newSink l (nsinks h)) as [err|[T s]] eqn:Hnew.
    { rewrite (Subscribe_inl _ _ _ Hnew). apply Hlive. }
    destruct (Subscribe_then_Publish _ _ _ _ Hnew)
      as (k & h1 & HS & Hks & Hkt & Hko & Hsf & _).
    destruct (Subscribe_inr _ _ _ _ Hnew) as (h1' & HS' & _ & Hon & _).
    rewrite HS in HS'. injection HS' as Hk' Hh'. subst h1'.
    rewrite HS. cbn [the_hub]. rewrite Hsf, Hlive.
    unfold live. cbn [the_hub handles]. rewrite Hon.
    rewrite list.filter_app, fmap_app.
    rewrite (filter_ext_elem
               (λ k', c_eventType k' = t
                      ∧ (onces h ++ [false]) !! c_once k' = Some false)
               (λ k', c_eventType k' = t
                      ∧ onces h !! c_once k' = Some false) ks).
    2:{ intros k' Hk. destruct (Hidx _ Hk) as [_ Hlt].
        by rewrite lookup_app_l by done. }
    rewrite filter_cons, filter_nil.
    rewrite Hko, lookup_app_r, Nat.sub_diag by lia. cbn [lookup].
    rewrite Hkt. destruct (decide (t = Some T)) as [->|Ht].
    + rewrite decide_True by done. cbn. by rewrite Hks.
    + rewrite decide_False by (intros [? _]; congruence).
      cbn. by rewrite app_nil_r.
  - destruct (handles c !! i) as [k|] eqn:Hi.
    2:{ cbn [step]. rewrite Hi. apply Hlive. }
    pose proof (call_Cancel_sinks c i k t Hinv Hi) as Hcs.
    destruct (inv_handle _ Hinv _ _ Hi) as [Hki _].
    cbn [step]. rewrite Hi. cbn [the_hub]. rewrite Hcs, Hlive.
    unfold live. cbn [the_hub handles].
    rewrite <-(live_others _ i).
    2:{ intros k' Hk. destruct (Hidx _ Hk) as [Hk' _]. split.
        - intros Hne Heq. apply Hne.
          by apply (inv_inj _ Hinv _ _ _ _ Hk' Hi).
        - intros Hne Heq. apply Hne. rewrite Heq in Hk'.
          pose proof (eq_trans (eq_sym Hk') Hi) as Hkk.
          by injection Hkk as ->. }
    f_equal. apply filter_ext_elem. intros k' Hk.
    destruct (Hidx _ Hk) as [_ Hlt].
    destruct (call_Cancel_spec k (the_hub c)) as [(Ho & _ & Hon & _)|[Hno Heq]].
    + rewrite Hon, Hki. destruct (decide (c_once k' = i)) as [Hc|Hne].
      * rewrite Hc in Hlt |- *. rewrite list_lookup_insert_eq by exact Hlt.
        split; [intros [_ Hx]; by destruct Hx|].
        intros [_ Hf]. discriminate Hf.
      * rewrite list_lookup_insert_ne by done. tauto.
    + rewrite Heq. split; [tauto|]. intros [Hty Hf]. split_and!; [done..|].
      intros Hc. rewrite Hc, <-Hki in Hf. by rewrite Hf in Hno.
Qed.

(** X15. The list that Publish goes through for an event type is, at
    any time, exactly the sinks of the closures for that type that
    Subscribe has returned and that have not run, in the order of the
    Subscribe calls. *)
Theorem registry_is_the_live_subscriptions (ops : list op) (t : Type_) :
  let c := run ops start in
  sinks_for (the_hub c) t = live c t
  ∧ ∀ (World : Type) Call Send (e : iface) (w : World),
      TypeOf e = t →
      Publish Call Send e (the_hub c) w
      = deliver Call Send (live c t) (ValueOf e) w.
Proof.
  intros c.
  assert (∀ t, sinks_for (the_hub c) t = live c t) as Hlive.
  { subst c. clear t. unfold run.
    induction ops as [|o ops IH] using rev_ind; intros t; [done|].
    rewrite foldl_app. cbn [foldl]. apply live_step; [|exact IH].
    apply (hub_inv_run ops _ hub_inv_start). }
  split; [apply Hlive|].
  intros World Call Send e w <-. by rewrite Publish_deliver, Hlive.
Qed.

(** ** Concrete runs *)

Example invalid_candidates_errors :
  (λ l, (Subscribe l New).1) <$> invalidCandidates
  = [ (None, Some ErrInvalidEventType); (None, Some ErrInvalidFunction);
      (None, Some ErrInvalidFunction); (None, Some ErrInvalidFunction);
      (None, Some ErrInvalidListener); (None, Some ErrInvalidChannel);
      (None, Some ErrInvalidFunction); (None, Some ErrInvalidListener) ].
Proof. vm_compute. reflexivity. Qed.

Example scenario_both :
  (Publish demoCall demoSend (Some (aTestEvent 100)) (scenario []) []).2
  = Returns [1; 2].
Proof. vm_compute. reflexivity. Qed.

Example scenario_cancelled :
  (Publish demoCall demoSend (Some (aTestEvent 100)) (scenario [Can 0]) []).2
  = Returns [2]
  ∧ scenario [Can 0; Can 0] = scenario [Can 0].
Proof. vm_compute. split; reflexivity. Qed.

(** add and remove on a heap with one map object: add makes object 1
    and leaves object 0 alone; removing a sink that is registered makes
    a new object, removing one that is not returns the receiver. *)
Example add_remove_on_heap :
  let a := mkSink 0 (sinkFunc (Some (onTestEvent 1))) in
  let b := mkSink 1 (sinkFunc (Some (onTestEvent 2))) in
  let σ : mapheap := [{[Some tTestEvent := [a]]}] in
  let t := Some tTestEvent in
  let look (r : subscriptions * mapheap) (s : subscriptions) :=
    (r.1, length r.2, contents r.2 s !! t) in
  look (add (mapref 0) t b σ) (mapref 1) = (mapref 1, 2, Some [a; b])
  ∧ look (add (mapref 0) t b σ) (mapref 0) = (mapref 1, 2, Some [a])
  ∧ look (remove (mapref 0) t a σ) (mapref 1) = (mapref 1, 2, Some [])
  ∧ look (remove (mapref 0) t a σ) (mapref 0) = (mapref 1, 2, Some [a])
  ∧ look (remove (mapref 0) t b σ) (mapref 0) = (mapref 0, 1, Some [a])
  ∧ look (remove (mapref 0) (Some tString) a σ) (mapref 0)
    = (mapref 0, 1, Some [a])
  ∧ look (remove nilmap t a σ) nilmap = (nilmap, 1, None).
Proof. vm_compute. repeat split; reflexivity. Qed.

(** testHubPublishSubscribe: the first event reaches the object, the
    function and the channel; after the function's cancel the second
    reaches object and channel; after the other two cancels, and after
    cancelling again, nothing is reached; a string reaches nothing. *)
Example test_publish_subscribe :
  let h ops := the_hub (run (testListeners ++ ops) start) in
  let pub ops e := (Publish demoCall demoSend (Some e) (h ops) []).2 in
  pub [] (aTestEvent 100) = Returns [1; 2; 3]
  ∧ pub [] (aString 0) = Returns []
  ∧ pub [Can 1] (aTestEvent 200) = Returns [1; 3]
  ∧ pub [Can 1; Can 0; Can 2] (aTestEvent 100) = Returns []
  ∧ pub [Can 1; Can 0; Can 2; Can 0; Can 1; Can 2] (aTestEvent 200)
    = Returns [].
Proof. vm_compute. repeat split; reflexivity. Qed.

Example scenario_panic :
  Publish demoCall demoSend (Some (aTestEvent 100))
    (scenario [Sub (Some (onTestEvent 13)); Sub (Some (onTestEvent 4))]) []
  = ([(mkSink 0 (sinkFunc (Some (onTestEvent 1))), Some (aTestEvent 100));
      (mkSink 1 (sinkFunc (Some (onTestEvent 2))), Some (aTestEvent 100));
      (mkSink 2 (sinkFunc (Some (onTestEvent 13))), Some (aTestEvent 100))],
     Panics [1; 2; 13]).
Proof. vm_compute. reflexivity. Qed.

(** The test's scenario for C1: on a new hub, a listener for strings
    gets the one string published and nothing of another type. *)
Lemma subscribed_function_receives_its_events_witness :
  typ (onString 1) = FuncOf [tString] []
  ∧ KindOf tString ≠ Interface
  ∧ ∃ k h1,
      Subscribe (Some (onString 1)) New = (Some k, None, h1)
      ∧ Publish demoCall demoSend (Some (aString 7)) h1 []
        = ([(c_sink k, Some (aString 7))], Returns [1])
      ∧ entered (c_sink k)
          (Publish demoCall demoSend (Some (aTestEvent 7)) h1 []).1 = 0.
Proof.
  assert (typ (onString 1) = FuncOf [tString] []) as H1 by reflexivity.
  assert (KindOf tString ≠ Interface) as H2 by discriminate.
  split; [exact H1|]. split; [exact H2|].
  destruct (subscribed_function_receives_its_events [] (onString 1) tString
              H1 H2) as (k & h1 & HS & Hk & Hlater & _ & Hnew).
  exists k, h1. split; [exact HS|]. split.
  - exact (Hnew eq_refl _ demoCall demoSend (Some (aString 7)) [] eq_refl).
  - apply (Hlater [] (not_elem_of_nil _) _ demoCall demoSend
             (Some (aTestEvent 7)) []).
    discriminate.
Defined.

(** A function of two parameters is turned down on a new hub. *)
Lemma subscribe_rejects_and_changes_nothing_witness :
  let l : iface := Some (mkValue (FuncOf [tInt; tInt] []) (Opaque 2)) in
  spec_rejects l ErrInvalidFunction
  ∧ Subscribe l New = (None, Some ErrInvalidFunction, New)
  ∧ registry (Subscribe l New).2 = registry New.
Proof.
  intros l.
  assert (spec_rejects l ErrInvalidFunction) as Hrej.
  { apply (rej_func _ [tInt; tInt] []); [reflexivity|]. left. simpl. lia. }
  split; [exact Hrej|].
  destruct (subscribe_rejects_and_changes_nothing l ErrInvalidFunction New
              Hrej) as (HS & Hreg & _).
  split; [exact HS|exact Hreg].
Defined.

(** The second of two listeners is cancelled three times, with another
    Subscribe in between. *)
Lemma cancel_is_idempotent_and_selective_witness :
  let ops := [Sub (Some (onTestEvent 1))] in
  let l : iface := Some (onTestEvent 2) in
  let k := mkCancel 1 (Some tTestEvent)
             (mkSink 1 (sinkFunc (Some (onTestEvent 2)))) in
  let h1 := (Subscribe l (the_hub (run ops start))).2 in
  let ops2 := [Sub (Some (onTestEvent 3)); Can 1] in
  let h2 := the_hub (run ops2 (mkClient h1 (handles (run ops start) ++ [k]))) in
  Subscribe l (the_hub (run ops start)) = (Some k, None, h1)
  ∧ 1 ≤ 3
  ∧ Nat.iter 3 (call_Cancel k) h2 = call_Cancel k h2
  ∧ sinks_for (call_Cancel k h2) (Some tTestEvent)
    = others (c_sink k) (sinks_for h2 (Some tTestEvent)).
Proof.
  intros ops l k h1 ops2 h2.
  assert (Subscribe l (the_hub (run ops start)) = (Some k, None, h1)) as HS
    by (vm_compute; reflexivity).
  assert (1 ≤ 3) as HN by lia.
  split; [exact HS|]. split; [exact HN|].
  destruct (cancel_is_idempotent_and_selective ops ops2 l k h1 3 HS HN)
    as (Hiter & _ & Hsinks & _).
  split; [exact Hiter|exact (Hsinks (Some tTestEvent))].
Defined.

(** Three sinks for one type, the second panics. *)
Lemma publish_panic_aborts_delivery_witness :
  let s1 := mkSink 0 (sinkFunc (Some (onTestEvent 1))) in
  let s2 := mkSink 1 (sinkFunc (Some (onTestEvent 13))) in
  let s3 := mkSink 2 (sinkFunc (Some (onTestEvent 4))) in
  let σ : mapheap := [{[Some tTestEvent := [s1; s2; s3]]}] in
  let e : iface := Some (aTestEvent 100) in
  contents σ (mapref 0) !! TypeOf e = Some ([s1] ++ s2 :: [s3])
  ∧ deliver demoCall demoSend [s1] (ValueOf e) []
    = (deliveries [s1] (ValueOf e), Returns [1])
  ∧ send demoCall demoSend s2 (ValueOf e) [1] = Panics [1; 13]
  ∧ publish demoCall demoSend σ (mapref 0) e []
    = (deliveries ([s1] ++ [s2]) (ValueOf e), Panics [1; 13]).
Proof.
  intros s1 s2 s3 σ e.
  assert (contents σ (mapref 0) !! TypeOf e = Some ([s1] ++ s2 :: [s3]))
    as H1 by (vm_compute; reflexivity).
  assert (deliver demoCall demoSend [s1] (ValueOf e) []
          = (deliveries [s1] (ValueOf e), Returns [1])) as H2 by reflexivity.
  assert (send demoCall demoSend s2 (ValueOf e) [1] = Panics [1; 13])
    as H3 by reflexivity.
  split; [exact H1|]. split; [exact H2|]. split; [exact H3|].
  exact (publish_panic_aborts_delivery demoCall demoSend σ (mapref 0) e
           [s1] [s3] s2 [] [1] [1; 13] H1 H2 H3).
Defined.

(** A list that holds one sink twice. *)
Lemma remove_drops_every_occurrence_witness :
  let a := mkSink 0 (sinkFunc (Some (onTestEvent 1))) in
  let b := mkSink 1 (sinkFunc (Some (onTestEvent 2))) in
  let σ : mapheap := [{[Some tTestEvent := [a; b; a]]}] in
  contents σ (mapref 0) !! Some tTestEvent = Some [a; b; a]
  ∧ 1 ≤ occurrences a [a; b; a]
  ∧ ∃ updated,
      contents (remove (mapref 0) (Some tTestEvent) a σ).2
               (remove (mapref 0) (Some tTestEvent) a σ).1
        !! Some tTestEvent = Some updated
      ∧ occurrences a updated = 0
      ∧ updated = [b].
Proof.
  intros a b σ.
  assert (contents σ (mapref 0) !! Some tTestEvent = Some [a; b; a]) as H1
    by (vm_compute; reflexivity).
  assert (1 ≤ occurrences a [a; b; a]) as H2 by (vm_compute; lia).
  split; [exact H1|]. split; [exact H2|].
  destruct (remove_drops_every_occurrence (mapref 0) (Some tTestEvent) a σ
              [a; b; a] H1 H2) as (updated & Hl & Hocc & Heq & _).
  exists updated. split; [exact Hl|]. split; [exact Hocc|].
  rewrite Heq. reflexivity.
Defined.

(** remove on a list of two sinks: one that is there, one that is not. *)
Lemma remove_drops_or_returns_receiver_witness :
  let a := mkSink 0 (sinkFunc (Some (onTestEvent 1))) in
  let b := mkSink 1 (sinkFunc (Some (onTestEvent 2))) in
  let c := mkSink 5 (sinkFunc (Some (onTestEvent 3))) in
  let t := Some tTestEvent in
  let σ : mapheap := [{[t := [a; b]]}] in
  present σ (mapref 0) t a
  ∧ ¬ present σ (mapref 0) t c
  ∧ (remove (mapref 0) t a σ).1 = mapref 1
  ∧ contents (remove (mapref 0) t a σ).2 (mapref 1) !! t = Some [b]
  ∧ remove (mapref 0) t c σ = (mapref 0, σ).
Proof.
  intros a b c t σ.
  assert (contents σ (mapref 0) !! t = Some [a; b]) as Hl
    by (vm_compute; reflexivity).
  assert (present σ (mapref 0) t a) as Hp.
  { exists [a; b], a. split; [exact Hl|]. split; [|reflexivity].
    apply list_elem_of_here. }
  assert (¬ present σ (mapref 0) t c) as Hn.
  { intros (l & x & Hl' & Hx & Heq). rewrite Hl in Hl'.
    injection Hl' as <-. apply elem_of_cons in Hx as [->|Hx].
    - discriminate Heq.
    - apply list_elem_of_singleton in Hx as ->. discriminate Heq. }
  split; [exact Hp|]. split; [exact Hn|].
  destruct (remove_drops_or_returns_receiver (mapref 0) t a σ)
    as (Hc & _ & Hpres & _).
  destruct (Hpres Hp) as (Hr & _).
  destruct (remove_drops_or_returns_receiver (mapref 0) t c σ)
    as (_ & _ & _ & Habs).
  split; [exact Hr|]. split; [|exact (Habs Hn)].
  change (mapref 1) with (mapref (length σ)).
  rewrite <-Hr, Hc, lookup_alter_eq, Hl. reflexivity.
Defined.

(** add to the map object of a one-object heap. *)
Lemma add_appends_and_preserves_witness :
  let a := mkSink 0 (sinkFunc (Some (onTestEvent 1))) in
  let b := mkSink 1 (sinkFunc (Some (onTestEvent 2))) in
  let t := Some tTestEvent in
  let σ : mapheap := [{[t := [a]]}] in
  valid_ref σ (mapref 0)
  ∧ (add (mapref 0) t b σ).1 = mapref 1
  ∧ contents (add (mapref 0) t b σ).2 (mapref 1) !! t = Some [a; b]
  ∧ contents (add (mapref 0) t b σ).2 (mapref 0) = contents σ (mapref 0).
Proof.
  intros a b t σ.
  assert (valid_ref σ (mapref 0)) as Hv by (simpl; lia).
  split; [exact Hv|].
  destruct (add_appends_and_preserves (mapref 0) t b σ)
    as (Hr & _ & _ & Hl & _ & _ & Hkeep).
  split; [exact Hr|]. split; [|exact (Hkeep Hv)].
  change (mapref 1) with (mapref (length σ)).
  rewrite <-Hr, Hl. vm_compute. reflexivity.
Defined.

(** publish to two sinks that return, and of an event nobody listens
    to. *)
Lemma publish_delivers_in_list_order_witness :
  let s1 := mkSink 0 (sinkFunc (Some (onTestEvent 1))) in
  let s2 := mkSink 1 (sinkFunc (Some (onTestEvent 2))) in
  let σ : mapheap := [{[Some tTestEvent := [s1; s2]]}] in
  let e : iface := Some (aTestEvent 100) in
  (∀ x w0, x ∈ [s1; s2] →
     ∃ w1, send demoCall demoSend x (ValueOf e) w0 = Returns w1)
  ∧ (∃ w', publish demoCall demoSend σ (mapref 0) e []
           = (deliveries [s1; s2] (ValueOf e), Returns w'))
  ∧ publish demoCall demoSend σ (mapref 0) (Some (aString 1)) []
    = ([], Returns []).
Proof.
  intros s1 s2 σ e.
  assert (∀ x w0, x ∈ [s1; s2] →
            ∃ w1, send demoCall demoSend x (ValueOf e) w0 = Returns w1)
    as Hok.
  { intros x w0 Hx. apply elem_of_cons in Hx as [->|Hx].
    - by eexists.
    - apply list_elem_of_singleton in Hx as ->. by eexists. }
  split; [exact Hok|].
  assert (default [] (contents σ (mapref 0) !! TypeOf e) = [s1; s2]) as Hs
    by (vm_compute; reflexivity).
  assert (contents σ (mapref 0) !! TypeOf (Some (aString 1)) = None) as Hnone
    by (vm_compute; reflexivity).
  pose proof (publish_delivers_in_list_order demoCall demoSend σ (mapref 0)
                e []) as He.
  pose proof (publish_delivers_in_list_order demoCall demoSend σ (mapref 0)
                (Some (aString 1)) []) as Hstr.
  cbv zeta in He, Hstr. rewrite Hs in He.
  destruct He as (_ & _ & Hall & _). destruct Hstr as (_ & _ & _ & Hno & _).
  split; [exact (Hall Hok)|exact (Hno Hnone)].
Defined.

(** A channel of TestEvent on a new hub. *)
Lemma subscribed_channel_receives_its_events_witness :
  let c := mkValue (ChanOf BothDir tTestEvent) (Opaque 3) in
  let e : iface := Some (aTestEvent 100) in
  typ c = ChanOf BothDir tTestEvent
  ∧ BothDir ≠ RecvDir
  ∧ KindOf tTestEvent ≠ Interface
  ∧ ∃ k h1,
      Subscribe (Some c) New = (Some k, None, h1)
      ∧ c_sink k = mkSink 0 (sinkChan (Some c))
      ∧ Publish demoCall demoSend e h1 [] = ([(c_sink k, e)], Returns [3])
      ∧ Publish demoCall demoSend (Some (aString 1)) h1 [] = ([], Returns []).
Proof.
  intros c e.
  assert (typ c = ChanOf BothDir tTestEvent) as H1 by reflexivity.
  assert (BothDir ≠ RecvDir) as H2 by discriminate.
  assert (KindOf tTestEvent ≠ Interface) as H3 by discriminate.
  split; [exact H1|]. split; [exact H2|]. split; [exact H3|].
  destruct (subscribed_channel_receives_its_events New c BothDir tTestEvent
              H1 H2 H3) as (k & h1 & HS & Hk & _ & Hpub).
  exists k, h1. split; [exact HS|]. split; [exact Hk|]. split.
  - exact (proj1 (Hpub _ demoCall demoSend e []) eq_refl).
  - refine (proj2 (Hpub _ demoCall demoSend (Some (aString 1)) []) _).
    discriminate.
Defined.

(** The mock listener of the tests, an object with the one method
    OnEvent(TestEvent), on a new hub. *)
Lemma subscribed_object_receives_its_events_witness :
  let r := mkValue tMockListener (Opaque 1) in
  let e : iface := Some (aTestEvent 100) in
  typ r = Plain PPointer "*mockListener" [([tTestEvent], [])]
  ∧ KindOf tTestEvent ≠ Interface
  ∧ ∃ k h1,
      Subscribe (Some r) New = (Some k, None, h1)
      ∧ Publish demoCall demoSend e h1 [] = ([(c_sink k, e)], Returns [1]).
Proof.
  intros r e.
  assert (typ r = Plain PPointer "*mockListener" [([tTestEvent], [])])
    as H1 by reflexivity.
  assert (KindOf tTestEvent ≠ Interface) as H2 by discriminate.
  split; [exact H1|]. split; [exact H2|].
  destruct (subscribed_object_receives_its_events New r PPointer
              "*mockListener" tTestEvent H1 H2)
    as (_ & k & h1 & HS & _ & _ & Hpub).
  exists k, h1. split; [exact HS|].
  exact (proj1 (Hpub _ demoCall demoSend e []) eq_refl).
Defined.

(** The registry after the four Subscribe calls of the test. *)
Lemma registry_keys_are_concrete_types_witness :
  let s1 := mkSink 0 (sinkMethod (Some (mkValue tMockListener (Opaque 1)))
                        (Some (MethodFunc tMockListener 0))) in
  let s2 := mkSink 1 (sinkFunc (Some (onTestEvent 2))) in
  let s3 := mkSink 2 (sinkChan
                        (Some (mkValue (ChanOf BothDir tTestEvent)
                                 (Opaque 3)))) in
  registry (the_hub (run testListeners start)) !! Some tTestEvent
  = Some [s1; s2; s3]
  ∧ ∃ T, Some tTestEvent = Some T ∧ KindOf T ≠ Interface.
Proof.
  intros s1 s2 s3.
  assert (registry (the_hub (run testListeners start)) !! Some tTestEvent
          = Some [s1; s2; s3]) as H1 by (vm_compute; reflexivity).
  split; [exact H1|].
  destruct (registry_keys_are_concrete_types testListeners _ _ H1)
    as (T & HT & Hk & _).
  exists T. split; [exact HT|exact Hk].
Defined.

(** Two listeners for one type; the second closure has run. *)
Lemma subscription_is_registered_until_cancelled_witness :
  let k0 := mkCancel 0 (Some tTestEvent)
              (mkSink 0 (sinkFunc (Some (onTestEvent 1)))) in
  let k1 := mkCancel 1 (Some tTestEvent)
              (mkSink 1 (sinkFunc (Some (onTestEvent 2)))) in
  let ops := [Sub (Some (onTestEvent 1)); Sub (Some (onTestEvent 2)); Can 1] in
  let h := the_hub (run ops start) in
  handles (run ops start) !! 0 = Some k0
  ∧ handles (run ops start) !! 1 = Some k1
  ∧ occurrences (c_sink k0) (sinks_for h (Some tTestEvent)) = 1
  ∧ occurrences (c_sink k1) (sinks_for h (Some tTestEvent)) = 0.
Proof.
  intros k0 k1 ops h.
  assert (handles (run ops start) !! 0 = Some k0) as H0
    by (vm_compute; reflexivity).
  assert (handles (run ops start) !! 1 = Some k1) as H1
    by (vm_compute; reflexivity).
  assert (onces h !! 0 = Some false) as Ho0 by (vm_compute; reflexivity).
  assert (onces h !! 1 = Some true) as Ho1 by (vm_compute; reflexivity).
  split; [exact H0|]. split; [exact H1|].
  destruct (subscription_is_registered_until_cancelled ops 0 k0 H0)
    as (_ & Hlive & _).
  destruct (subscription_is_registered_until_cancelled ops 1 k1 H1)
    as (_ & _ & Hdone & _).
  split; [exact (proj1 (Hlive Ho0))|exact (Hdone Ho1 (Some tTestEvent))].
Defined.

(** Three listeners for one type, the second cancelled: the first
    stands before the third. *)
Lemma delivery_order_is_subscription_order_witness :
  let k0 := mkCancel 0 (Some tTestEvent)
              (mkSink 0 (sinkFunc (Some (onTestEvent 1)))) in
  let k2 := mkCancel 2 (Some tTestEvent)
              (mkSink 2 (sinkFunc (Some (onTestEvent 3)))) in
  let ops := [Sub (Some (onTestEvent 1)); Sub (Some (onTestEvent 2));
              Sub (Some (onTestEvent 3)); Can 1] in
  let h := the_hub (run ops start) in
  handles (run ops start) !! 0 = Some k0
  ∧ handles (run ops start) !! 2 = Some k2
  ∧ 0 < 2
  ∧ c_eventType k0 = c_eventType k2
  ∧ onces h !! 0 = Some false
  ∧ onces h !! 2 = Some false
  ∧ stands_before (c_sink k0) (c_sink k2) (sinks_for h (c_eventType k0)).
Proof.
  intros k0 k2 ops h.
  assert (handles (run ops start) !! 0 = Some k0) as H0
    by (vm_compute; reflexivity).
  assert (handles (run ops start) !! 2 = Some k2) as H2
    by (vm_compute; reflexivity).
  assert (0 < 2) as Hlt by lia.
  assert (c_eventType k0 = c_eventType k2) as Hty by reflexivity.
  assert (onces h !! 0 = Some false) as Ho0 by (vm_compute; reflexivity).
  assert (onces h !! 2 = Some false) as Ho2 by (vm_compute; reflexivity).
  split; [exact H0|]. split; [exact H2|]. split; [exact Hlt|].
  split; [exact Hty|]. split; [exact Ho0|]. split; [exact Ho2|].
  exact (proj1 (delivery_order_is_subscription_order ops 0 2 k0 k2
                  H0 H2 Hlt Hty Ho0 Ho2)).
Defined.

(** A second listener is subscribed and cancelled at once. *)
Lemma subscribe_then_cancel_restores_witness :
  let ops := [Sub (Some (onTestEvent 1))] in
  let l : iface := Some (onString 2) in
  let k := mkCancel 1 (Some tString)
             (mkSink 1 (sinkFunc (Some (onString 2)))) in
  let h0 := the_hub (run ops start) in
  let h1 := (Subscribe l h0).2 in
  Subscribe l h0 = (Some k, None, h1)
  ∧ sinks_for (call_Cancel k h1) (Some tString) = sinks_for h0 (Some tString)
  ∧ is_Some (registry (call_Cancel k h1) !! Some tString).
Proof.
  intros ops l k h0 h1.
  assert (Subscribe l h0 = (Some k, None, h1)) as HS
    by (vm_compute; reflexivity).
  split; [exact HS|].
  destruct (subscribe_then_cancel_restores ops l k h1 HS)
    as (Hsame & _ & Hkey & _).
  split; [exact (Hsame (Some tString))|exact Hkey].
Defined.

(** The two closures of the scenario, called in either order. *)
Lemma cancellations_commute_witness :
  let k0 := mkCancel 0 (Some tTestEvent)
              (mkSink 0 (sinkFunc (Some (onTestEvent 1)))) in
  let k1 := mkCancel 1 (Some tTestEvent)
              (mkSink 1 (sinkFunc (Some (onTestEvent 2)))) in
  let ops := [Sub (Some (onTestEvent 1)); Sub (Some (onTestEvent 2))] in
  let h := the_hub (run ops start) in
  handles (run ops start) !! 0 = Some k0
  ∧ handles (run ops start) !! 1 = Some k1
  ∧ ∀ t, sinks_for (call_Cancel k1 (call_Cancel k0 h)) t
         = sinks_for (call_Cancel k0 (call_Cancel k1 h)) t.
Proof.
  intros k0 k1 ops h.
  assert (handles (run ops start) !! 0 = Some k0) as H0
    by (vm_compute; reflexivity).
  assert (handles (run ops start) !! 1 = Some k1) as H1
    by (vm_compute; reflexivity).
  split; [exact H0|]. split; [exact H1|].
  exact (proj1 (cancellations_commute ops 0 1 k0 k1 H0 H1)).
Defined.

(** The same function subscribed twice on a new hub. *)
Lemma same_listener_twice_is_two_subscriptions_witness :
  let l : iface := Some (onString 1) in
  let k1 := mkCancel 0 (Some tString)
              (mkSink 0 (sinkFunc (Some (onString 1)))) in
  let h1 := (Subscribe l New).2 in
  Subscribe l New = (Some k1, None, h1)
  ∧ ∃ k2 h2,
      Subscribe l h1 = (Some k2, None, h2)
      ∧ sobj (c_sink k2) = sobj (c_sink k1)
      ∧ sptr (c_sink k2) ≠ sptr (c_sink k1)
      ∧ sinks_for h2 (Some tString) = [c_sink k1; c_sink k2]
      ∧ sinks_for (call_Cancel k1 h2) (Some tString) = [c_sink k2].
Proof.
  intros l k1 h1.
  assert (Subscribe l New = (Some k1, None, h1)) as HS
    by (vm_compute; reflexivity).
  split; [exact HS|].
  destruct (same_listener_twice_is_two_subscriptions [] l k1 h1 HS)
    as (k2 & h2 & T & HS2 & HT1 & _ & Hobj & Hptr & Hl & Hc1 & _).
  injection HT1 as <-.
  exists k2, h2. split; [exact HS2|]. split; [exact Hobj|].
  split; [exact Hptr|]. split; [exact Hl|exact Hc1].
Defined.
